(** * Configuration bootstrap of the chat services: pkg/common/cmd/root.go

    A shallow embedding of [RootCmd.persistentPreRun] and of the functions
    it calls, in particular [updateConfigFromEtcd], the reconciliation of
    the locally loaded configuration with the records kept in etcd. *)

From Stdlib Require Import Ascii.
From stdpp Require Import base strings gmap list.

Open Scope string_scope.
Open Scope list_scope.

(** ** Errors

    Go's [error] values.  [None : option error] is Go's [nil] error. *)

Inductive error : Type :=
| LibError (msg : string)
    (* an error value made by a library: cobra, viper, encoding/json, etcd *)
| ErrsNew (msg : string)
    (* errs.New(msg).Wrap() *)
| ErrsWrap (cause : error)
    (* errs.Wrap(cause) *)
| ErrsWrapMsg (cause : error) (msg : string)
    (* errs.WrapMsg(cause, msg) *)
| ErrArgsWithDetail (cause : error).
    (* errs.ErrArgs.WithDetail(cause.Error()).Wrap() *)

(** [errs.Wrap] hands a nil error back as nil. *)
Definition Wrap (err : option error) : option error := ErrsWrap <$> err.

(** What a Go call comes to: it returns, or it panics. *)
Inductive outcome (A : Type) : Type :=
| Returns (a : A)
| Panics (reason : string).
Arguments Returns {A} a.
Arguments Panics {A} reason.

(** The call panics. *)
Definition panics {A : Type} (o : outcome A) : Prop :=
  ∃ reason, o = Panics reason.

(** ** The etcd client and the store behind it *)

(** A [*clientv3.Client] that is not nil names a connection. *)
Definition Client := nat.

(** The requests the code sends through its client. *)
Inductive Op : Type :=
| OpGet (key : string)
| OpPut (key val : string)
| OpClose (c : Client).

Global Instance Op_eq_dec : EqDecision Op.
Proof. solve_decision. Defined.

(** mvccpb.KeyValue, the two fields the code reads. *)
Record KeyValue := { Key : string; Value : string }.

(** The world outside the process as far as the bootstrap touches it:
    the records of the store, the requests issued so far (oldest first),
    the warnings written by [log.ZWarn], and the connections that are
    open. *)
Record World := {
  kv : gmap string string;
  issued : list Op;
  warned : list (string * error);
  conns : list Client
}.

Definition issue (op : Op) (w : World) : World :=
  {| kv := kv w; issued := issued w ++ [op]; warned := warned w; conns := conns w |}.

Definition store (key val : string) (w : World) : World :=
  {| kv := <[key := val]> (kv w); issued := issued w; warned := warned w;
     conns := conns w |}.

(** log.ZWarn(ctx, msg, err) *)
Definition ZWarn (msg : string) (err : error) (w : World) : World :=
  {| kv := kv w; issued := issued w; warned := warned w ++ [(msg, err)];
     conns := conns w |}.

Definition connect (c : Client) (w : World) : World :=
  {| kv := kv w; issued := issued w; warned := warned w; conns := c :: conns w |}.

Definition disconnect (c : Client) (w : World) : World :=
  {| kv := kv w; issued := issued w; warned := warned w;
     conns := filter (λ c', c' ≠ c) (conns w) |}.

(** ** The command *)

(** cobra.Command as the bootstrap reads it: what the flag set gives for
    the two flags declared by [NewRootCmd]. *)
Record Command := {
  flagConf : error + string;          (* cmd.Flags().GetString(config.FlagConf) *)
  flagTransferIndex : error + Z       (* cmd.Flags().GetInt(config.FlagTransferIndex) *)
}.

(** ** What the command is built on

    The packages the file imports, with the signatures of the calls it
    makes of them. *)

(** The constants and tables of pkg/common/kdisc, pkg/common/kdisc/etcd
    and pkg/common/config: the key of a configuration name, the name of the
    switch of the configuration centre, the names of the log and discovery
    configurations, the environment prefix of a name, the name of the etcd
    backend. *)
Class Constants := {
  BuildKey : string → string;
  EnableConfigCenterKey : string;
  LogConfigFileName : string;
  DiscoveryConfigFileName : string;
  EnvPrefixMap : string → string;
  ETCDCONST : string
}.

(** Modelled from the spec: the two literals of the control key,
    [disetcd.Enable] and [disetcd.Disable], which are declared in
    pkg/common/kdisc/etcd. *)
Definition Enable : string := "enable".
Definition Disable : string := "disable".

(** encoding/json over the configuration structures [V] ([any] in
    [CmdOpts.configMap], [config.Log], [config.Discovery]: one type of
    values for all).  [json.Unmarshal(data, ptr)] writes through [ptr]: it
    is given the structure as it stands and leaves the structure it has
    made of it, together with its error. *)
Class Json (V : Type) := {
  Marshal : V → error + string;
  Unmarshal : string → V → V * option error
}.

(** Whether the store answers a request, given the requests it has seen:
    [Some err] is the error the client returns instead of an answer. *)
Class Store := {
  fault : list Op → Op → option error
}.

(** The rest of the process: the runtime environment; [config.Load(dir,
    name, envPrefix, env, out)], which writes the structure behind [out]
    and returns its error; [config.Discovery{}] and [config.Log{}], and the
    field [Enable] of a discovery configuration; the registry
    [kdisc.NewDiscoveryRegister] makes for a discovery configuration,
    [Some c] when it is a [*etcd.SvcDiscoveryRegistryImpl], whose client is
    [c]; the loggers of github.com/openimsdk/tools/log, made from the
    prefix, the process name and the fields of the log configuration. *)
Class Environment (V : Type) := {
  PrintRuntimeEnvironment : string;
  Load : string → string → string → string → V → V * option error;
  zeroDiscovery : V;
  zeroLog : V;
  DiscoveryEnable : V → string;
  NewDiscoveryRegister : V → string → option Client;
  InitLoggerFromConfig : string → string → V → option error;
  InitConsoleLogger : string → V → option error
}.

Section Cmd.

Context {V : Type}.
Context {consts : Constants} {json : Json V} {etcd : Store}
        {proc : Environment V}.

Record RootCmd := {
  command : Command;
  processName : string;
  port : Z;
  prometheusPort : Z;
  log : V;
  index : Z;
  configPath : string;
  etcdClient : option Client
}.

(** [configMap] maps each name to a pointer to a structure of the
    caller.  Each name has a structure of its own, which no other name and
    no field of the command points to; the structures are kept here, under
    their names, and a write through the pointer is an insertion.  A nil
    map is the empty one. *)
Record CmdOpts := {
  loggerPrefixName : string;
  configMap : gmap string V
}.

Definition set_log (v : V) (r : RootCmd) : RootCmd :=
  {| command := command r; processName := processName r; port := port r;
     prometheusPort := prometheusPort r; log := v; index := index r;
     configPath := configPath r; etcdClient := etcdClient r |}.

Definition set_index (i : Z) (r : RootCmd) : RootCmd :=
  {| command := command r; processName := processName r; port := port r;
     prometheusPort := prometheusPort r; log := log r; index := i;
     configPath := configPath r; etcdClient := etcdClient r |}.

Definition set_configPath (p : string) (r : RootCmd) : RootCmd :=
  {| command := command r; processName := processName r; port := port r;
     prometheusPort := prometheusPort r; log := log r; index := index r;
     configPath := p; etcdClient := etcdClient r |}.

Definition set_etcdClient (c : option Client) (r : RootCmd) : RootCmd :=
  {| command := command r; processName := processName r; port := port r;
     prometheusPort := prometheusPort r; log := log r; index := index r;
     configPath := configPath r; etcdClient := c |}.

Definition set_configMap (m : gmap string V) (o : CmdOpts) : CmdOpts :=
  {| loggerPrefixName := loggerPrefixName o; configMap := m |}.

(** [client.Get(ctx, key)] of one key: the error of the client, or
    [res.Kvs]; [res.Count] is the length of [res.Kvs], which holds the
    record of the key when there is one. *)
Definition Get (key : string) (w : World) : (error + list KeyValue) * World :=
  match fault (issued w) (OpGet key) with
  | Some err => (inl err, issue (OpGet key) w)
  | None =>
      (inr (match kv w !! key with
            | Some val => [{| Key := key; Value := val |}]
            | None => []
            end),
       issue (OpGet key) w)
  end.

(** [client.Put(ctx, key, val)] *)
Definition Put (key val : string) (w : World) : option error * World :=
  match fault (issued w) (OpPut key val) with
  | Some err => (Some err, issue (OpPut key val) w)
  | None => (None, store key val (issue (OpPut key val) w))
  end.

(** The closure [update] of [updateConfigFromEtcd], lines 173-196.  It
    returns its error, the structure behind [configStruct] as it leaves
    it, and the world. *)
Definition update (configFileName : string) (configStruct : V) (w : World)
  : option error * V * World :=
  let key := BuildKey configFileName in
  match Get key w with
  | (inl err, w1) =>
      (None, configStruct,
       ZWarn "root cmd updateConfigFromEtcd, etcd Get err: %v" (ErrsWrap err) w1)
  | (inr [], w1) =>
      match Marshal configStruct with
      | inl err => (Some (ErrArgsWithDetail err), configStruct, w1)
      | inr data =>
          match Put (BuildKey configFileName) data w1 with
          | (Some err, w2) =>
              (None, configStruct,
               ZWarn "root cmd updateConfigFromEtcd, etcd Put err: %v"
                     (ErrsWrap err) w2)
          | (None, w2) => (None, configStruct, w2)
          end
      end
  | (inr (kv0 :: _), w1) =>
      match Unmarshal (Value kv0) configStruct with
      | (v, Some err) =>
          (Some (ErrsWrapMsg err "failed to unmarshal config from etcd"), v, w1)
      | (v, None) => (None, v, w1)
      end
  end.

(** [for configFileName, configStruct := range opts.configMap], lines
    197-201.  Go fixes no order for the range over a map: [order] is the
    order this run takes the names in.  A name of the range is a key of
    the map; [configStruct] is read through the pointer kept under it. *)
Fixpoint rangeUpdate (order : list string) (m : gmap string V) (w : World)
  : option error * gmap string V * World :=
  match order with
  | [] => (None, m, w)
  | configFileName :: rest =>
      match m !! configFileName with
      | None => rangeUpdate rest m w
      | Some configStruct =>
          match update configFileName configStruct w with
          | (Some err, v, w') => (Some err, <[configFileName := v]> m, w')
          | (None, v, w') => rangeUpdate rest (<[configFileName := v]> m) w'
          end
      end
  end.

(** [order] is an order in which a range over [m] may run. *)
Definition rangeOf (m : gmap string V) (order : list string) : Prop :=
  order ≡ₚ (map_to_list m).*1.

(** [updateConfigFromEtcd], lines 152-208. *)
Definition updateConfigFromEtcd (order : list string)
    (r : RootCmd) (opts : CmdOpts) (w : World)
  : option error * RootCmd * CmdOpts * World :=
  match etcdClient r with
  | None => (None, r, opts, w)
  | Some _ =>
      match Get (BuildKey EnableConfigCenterKey) w with
      | (inl err, w1) =>
          (None, r, opts,
           ZWarn "root cmd updateConfigFromEtcd, etcd Get EnableConfigCenterKey err: %v"
                 (ErrsWrap err) w1)
      | (inr [], w1) => (None, r, opts, w1)
      | (inr (kv0 :: _), w1) =>
          if decide (Value kv0 = Disable) then (None, r, opts, w1)
          else if decide (Value kv0 ≠ Enable) then
            (Some (ErrsNew "unknown EnableConfigCenter value"), r, opts, w1)
          else
            match rangeUpdate order (configMap opts) w1 with
            | (Some err, m, w2) => (Some err, r, set_configMap m opts, w2)
            | (None, m, w2) =>
                match update LogConfigFileName (log r) w2 with
                | (Some err, v, w3) =>
                    (Some err, set_log v r, set_configMap m opts, w3)
                | (None, v, w3) =>
                    (None, set_log v r, set_configMap m opts, w3)
                end
            end
      end
  end.

(** *** The orchestration *)

(** [defaultCmdOpts] *)
Definition defaultCmdOpts : CmdOpts :=
  {| loggerPrefixName := "openim-chat-log"; configMap := ∅ |}.

(** [WithLogName] and [WithConfigMap] *)
Definition WithLogName (logName : string) : CmdOpts → CmdOpts :=
  λ opts, {| loggerPrefixName := logName; configMap := configMap opts |}.
Definition WithConfigMap (m : gmap string V) : CmdOpts → CmdOpts :=
  λ opts, set_configMap m opts.

(** [applyOptions] *)
Definition applyOptions (opts : list (CmdOpts → CmdOpts)) : CmdOpts :=
  foldl (λ cmdOpts opt, opt cmdOpts) defaultCmdOpts opts.

(** [NewRootCmd]: the command with its flag set, everything else zero. *)
Definition NewRootCmd (name : string) (cmd : Command) : RootCmd :=
  {| command := cmd; processName := name; port := 0; prometheusPort := 0;
     log := zeroLog; index := 0; configPath := ""; etcdClient := None |}.

(** [getFlag] *)
Definition getFlag (cmd : Command) (r : RootCmd)
  : (error + string * Z) * RootCmd :=
  match flagConf cmd with
  | inl err => (inl (ErrsWrap err), r)
  | inr configDirectory =>
      match flagTransferIndex cmd with
      | inl err => (inl (ErrsWrap err), r)
      | inr i => (inr (configDirectory, i), set_index i r)
      end
  end.

(** [initEtcd].  The error of [NewDiscoveryRegister] is dropped; the type
    assertion on what it returned panics when that is no etcd registry. *)
Definition initEtcd (r : RootCmd) (w : World)
  : outcome (option error) * RootCmd * World :=
  match getFlag (command r) r with
  | (inl err, r1) => (Returns (Some err), r1, w)
  | (inr (configDirectory, _), r1) =>
      let env := PrintRuntimeEnvironment in
      match Load configDirectory DiscoveryConfigFileName
                 (EnvPrefixMap DiscoveryConfigFileName) env zeroDiscovery with
      | (_, Some err) => (Returns (Some err), r1, w)
      | (disConfig, None) =>
          if decide (DiscoveryEnable disConfig = ETCDCONST) then
            match NewDiscoveryRegister disConfig env with
            | Some c => (Returns None, set_etcdClient (Some c) r1, connect c w)
            | None =>
                (Panics "interface conversion: not *etcd.SvcDiscoveryRegistryImpl",
                 r1, w)
            end
          else (Returns None, r1, w)
      end
  end.

(** The range of [initializeConfiguration], lines 140-146. *)
Fixpoint rangeLoad (order : list string) (configDirectory runtimeEnv : string)
    (m : gmap string V) : option error * gmap string V :=
  match order with
  | [] => (None, m)
  | configFileName :: rest =>
      match m !! configFileName with
      | None => rangeLoad rest configDirectory runtimeEnv m
      | Some configStruct =>
          match Load configDirectory configFileName
                     (EnvPrefixMap configFileName) runtimeEnv configStruct with
          | (v, Some err) => (Some err, <[configFileName := v]> m)
          | (v, None) =>
              rangeLoad rest configDirectory runtimeEnv (<[configFileName := v]> m)
          end
      end
  end.

(** [initializeConfiguration] *)
Definition initializeConfiguration (order : list string) (cmd : Command)
    (opts : CmdOpts) (r : RootCmd) : option error * RootCmd * CmdOpts :=
  match getFlag cmd r with
  | (inl err, r1) => (Some err, r1, opts)
  | (inr (configDirectory, _), r1) =>
      let r2 := set_configPath configDirectory r1 in
      let runtimeEnv := PrintRuntimeEnvironment in
      match rangeLoad order configDirectory runtimeEnv (configMap opts) with
      | (Some err, m) => (Some err, r2, set_configMap m opts)
      | (None, m) =>
          let '(v, err) := Load configDirectory LogConfigFileName
                                (EnvPrefixMap LogConfigFileName) runtimeEnv (log r2) in
          (err, set_log v r2, set_configMap m opts)
      end
  end.

(** [initializeLogger] *)
Definition initializeLogger (cmdOpts : CmdOpts) (r : RootCmd) : option error :=
  match InitLoggerFromConfig (loggerPrefixName cmdOpts) (processName r) (log r) with
  | Some err => Some (ErrsWrap err)
  | None => Wrap (InitConsoleLogger (processName r) (log r))
  end.

(** [r.etcdClient.Close()].  [Close] starts by reading a field of its
    receiver: on the nil client it panics. *)
Definition Close (c : option Client) (w : World) : outcome (option error) * World :=
  match c with
  | None => (Panics "invalid memory address or nil pointer dereference", w)
  | Some c =>
      (Returns (fault (issued w) (OpClose c)), disconnect c (issue (OpClose c) w))
  end.

(** [persistentPreRun], lines 108-127.  [loadOrder] and [updateOrder] are
    the orders of the two ranges over the configuration map. *)
Definition persistentPreRun (loadOrder updateOrder : list string)
    (r : RootCmd) (cmd : Command) (opts : list (CmdOpts → CmdOpts)) (w : World)
  : outcome (option error) * RootCmd * CmdOpts * World :=
  match initEtcd r w with
  | (Panics msg, r1, w1) => (Panics msg, r1, applyOptions opts, w1)
  | (Returns (Some err), r1, w1) => (Returns (Some err), r1, applyOptions opts, w1)
  | (Returns None, r1, w1) =>
      let cmdOpts := applyOptions opts in
      match initializeConfiguration loadOrder cmd cmdOpts r1 with
      | (Some err, r2, cmdOpts2) => (Returns (Some err), r2, cmdOpts2, w1)
      | (None, r2, cmdOpts2) =>
          match updateConfigFromEtcd updateOrder r2 cmdOpts2 w1 with
          | (Some err, r3, cmdOpts3, w3) => (Returns (Some err), r3, cmdOpts3, w3)
          | (None, r3, cmdOpts3, w3) =>
              match initializeLogger cmdOpts3 r3 with
              | Some err =>
                  (Returns (Some (ErrsWrapMsg err "failed to initialize logger")),
                   r3, cmdOpts3, w3)
              | None =>
                  match Close (etcdClient r3) w3 with
                  | (Panics msg, w4) => (Panics msg, r3, cmdOpts3, w4)
                  | (Returns (Some err), w4) =>
                      (Returns (Some (ErrsWrapMsg err "failed to close etcd client")),
                       r3, cmdOpts3, w4)
                  | (Returns None, w4) => (Returns None, r3, cmdOpts3, w4)
                  end
              end
          end
      end
  end.

(** *** The reconciliation mode of the spec *)

(** The mode the control key resolves to, in the words of the spec:
    Disabled when the get fails or finds no record or finds the literal
    of disabling, Enabled on the literal of enabling, Unknown on any
    other value. *)
Inductive ReconciliationMode := Disabled | Enabled | Unknown.

Definition resolveMode (w : World) : ReconciliationMode :=
  match fault (issued w) (OpGet (BuildKey EnableConfigCenterKey)) with
  | Some _ => Disabled
  | None =>
      match kv w !! BuildKey EnableConfigCenterKey with
      | None => Disabled
      | Some val =>
          if decide (val = Disable) then Disabled
          else if decide (val = Enable) then Enabled
          else Unknown
      end
  end.

(** *** The entries of a reconciliation *)

(** The entries [updateConfigFromEtcd] goes through: the names of the
    configuration map, and the log configuration of the command. *)
Inductive Entry := ConfigEntry (name : string) | LogEntry.

Definition entryName (e : Entry) : string :=
  match e with
  | ConfigEntry name => name
  | LogEntry => LogConfigFileName
  end.

(** The structure of an entry as the process holds it. *)
Definition entryValue (r : RootCmd) (opts : CmdOpts) (e : Entry) : option V :=
  match e with
  | ConfigEntry name => configMap opts !! name
  | LogEntry => Some (log r)
  end.

(** The values put under [key], in the order of the requests. *)
Fixpoint putsOf (key : string) (ops : list Op) : list string :=
  match ops with
  | [] => []
  | OpPut k val :: ops' =>
      if decide (k = key) then val :: putsOf key ops' else putsOf key ops'
  | _ :: ops' => putsOf key ops'
  end.

(** The world [update] leaves when the get of its key fails with [err]. *)
Definition afterGetError (key : string) (err : error) (w : World) : World :=
  ZWarn "root cmd updateConfigFromEtcd, etcd Get err: %v" (ErrsWrap err)
        (issue (OpGet key) w).

(** The world [update] leaves when the put of [data] fails with [err]. *)
Definition afterPutError (key data : string) (err : error) (w : World) : World :=
  ZWarn "root cmd updateConfigFromEtcd, etcd Put err: %v" (ErrsWrap err)
        (issue (OpPut key data) (issue (OpGet key) w)).

(** *** The paths of a run *)

(** What [update] does with an entry, by the path it takes. *)
Inductive updateCase (name : string) (v : V) (w : World)
  : option error * V * World → Prop :=
| GetFailed err :
    fault (issued w) (OpGet (BuildKey name)) = Some err →
    updateCase name v w (None, v, afterGetError (BuildKey name) err w)
| MarshalFailed err :
    fault (issued w) (OpGet (BuildKey name)) = None →
    kv w !! BuildKey name = None →
    Marshal v = inl err →
    updateCase name v w
      (Some (ErrArgsWithDetail err), v, issue (OpGet (BuildKey name)) w)
| PutFailed data err :
    fault (issued w) (OpGet (BuildKey name)) = None →
    kv w !! BuildKey name = None →
    Marshal v = inr data →
    fault (issued w ++ [OpGet (BuildKey name)]) (OpPut (BuildKey name) data)
      = Some err →
    updateCase name v w (None, v, afterPutError (BuildKey name) data err w)
| Seeded data :
    fault (issued w) (OpGet (BuildKey name)) = None →
    kv w !! BuildKey name = None →
    Marshal v = inr data →
    fault (issued w ++ [OpGet (BuildKey name)]) (OpPut (BuildKey name) data)
      = None →
    updateCase name v w
      (None, v,
       store (BuildKey name) data
         (issue (OpPut (BuildKey name) data) (issue (OpGet (BuildKey name)) w)))
| Adopted B v' :
    fault (issued w) (OpGet (BuildKey name)) = None →
    kv w !! BuildKey name = Some B →
    Unmarshal B v = (v', None) →
    updateCase name v w (None, v', issue (OpGet (BuildKey name)) w)
| DecodeFailed B v' err :
    fault (issued w) (OpGet (BuildKey name)) = None →
    kv w !! BuildKey name = Some B →
    Unmarshal B v = (v', Some err) →
    updateCase name v w
      (Some (ErrsWrapMsg err "failed to unmarshal config from etcd"), v',
       issue (OpGet (BuildKey name)) w).

(** What [updateConfigFromEtcd] does, by the path it takes. *)
Inductive reconcileCase (order : list string) (r : RootCmd) (opts : CmdOpts)
    (w : World) : option error * RootCmd * CmdOpts * World → Prop :=
| NoClient :
    etcdClient r = None →
    reconcileCase order r opts w (None, r, opts, w)
| ModeDisabled c w' :
    etcdClient r = Some c → resolveMode w = Disabled →
    kv w' = kv w →
    issued w' = issued w ++ [OpGet (BuildKey EnableConfigCenterKey)] →
    conns w' = conns w →
    reconcileCase order r opts w (None, r, opts, w')
| ModeUnknown c :
    etcdClient r = Some c → resolveMode w = Unknown →
    reconcileCase order r opts w
      (Some (ErrsNew "unknown EnableConfigCenter value"), r, opts,
       issue (OpGet (BuildKey EnableConfigCenterKey)) w)
| RangeFailed c err m w2 :
    etcdClient r = Some c → resolveMode w = Enabled →
    rangeUpdate order (configMap opts)
      (issue (OpGet (BuildKey EnableConfigCenterKey)) w) = (Some err, m, w2) →
    reconcileCase order r opts w (Some err, r, set_configMap m opts, w2)
| LogUpdated c m w2 res v w3 :
    etcdClient r = Some c → resolveMode w = Enabled →
    rangeUpdate order (configMap opts)
      (issue (OpGet (BuildKey EnableConfigCenterKey)) w) = (None, m, w2) →
    update LogConfigFileName (log r) w2 = (res, v, w3) →
    reconcileCase order r opts w (res, set_log v r, set_configMap m opts, w3).

(** *** The rest of the command *)

(** [Index] and [Port] *)
Definition Index (r : RootCmd) : Z := index r.

(** The options the package exports, by name, and the function each one
    is. *)
Inductive CmdOpt :=
| OptLogName (logName : string)
| OptConfigMap (m : gmap string V).

Definition optionOf (o : CmdOpt) : CmdOpts → CmdOpts :=
  match o with
  | OptLogName logName => WithLogName logName
  | OptConfigMap m => WithConfigMap m
  end.

Definition logNameOf (o : CmdOpt) : option string :=
  match o with OptLogName logName => Some logName | OptConfigMap _ => None end.

Definition configMapOf (o : CmdOpt) : option (gmap string V) :=
  match o with OptLogName _ => None | OptConfigMap m => Some m end.

(** A request of the reconciliation of [r] and [opts]: the get of the
    control key, or the get or a put of the key of an entry. *)
Definition entryRequest (r : RootCmd) (opts : CmdOpts) (op : Op) : Prop :=
  op = OpGet (BuildKey EnableConfigCenterKey)
  ∨ ∃ e, is_Some (entryValue r opts e)
         ∧ (op = OpGet (BuildKey (entryName e))
            ∨ ∃ data, op = OpPut (BuildKey (entryName e)) data).

(** The errors the client returns to the requests [ops], sent one after
    the other once the requests [before] have been sent. *)
Fixpoint faultsOf (before ops : list Op) : list error :=
  match ops with
  | [] => []
  | op :: ops' =>
      match fault before op with
      | Some err => err :: faultsOf (before ++ [op]) ops'
      | None => faultsOf (before ++ [op]) ops'
      end
  end.

(** From [w] to [w'], the warnings written are the wrapped errors of the
    requests sent, in the order of the requests: every request that has
    failed is logged once, and nothing else is. *)
Definition logsFaults (w w' : World) : Prop :=
  ∃ ops ws, issued w' = issued w ++ ops
            ∧ warned w' = warned w ++ ws
            ∧ ws.*2 = ErrsWrap <$> faultsOf (issued w) ops.

(** The range over the map stops at [name] with the error [err]: it has
    gone through the names [before] without error, and [update] returns
    [err] at [name].  The names [after] are not reached. *)
Definition stopsAt (order : list string) (m : gmap string V) (w : World)
    (before : list string) (name : string) (after : list string)
    (err : error) : Prop :=
  order = before ++ name :: after
  ∧ ∃ m1 w1 v, rangeUpdate before m w = (None, m1, w1)
               ∧ m1 !! name = Some v
               ∧ (update name v w1).1.1 = Some err.

(** A reconciliation that has found the control key on "enable" aborts
    with [err] before it reaches the entry [e]: the range stops at a name
    that comes before the name of [e]; the log configuration, which comes
    after the range (line 202), is not reached when the range stops. *)
Definition abortsBefore (order : list string) (opts : CmdOpts) (w : World)
    (e : Entry) (err : error) : Prop :=
  ∃ before name after,
    stopsAt order (configMap opts)
            (issue (OpGet (BuildKey EnableConfigCenterKey)) w)
            before name after err
    ∧ match e with
      | ConfigEntry n => n ∈ after
      | LogEntry => True
      end.

(** What [config.Load] makes of the structure of an entry. *)
Definition loadEntry (configDirectory : string) (e : Entry) (v : V)
  : V * option error :=
  Load configDirectory (entryName e) (EnvPrefixMap (entryName e))
       PrintRuntimeEnvironment v.

End Cmd.

(** ** A concrete command

    The command of a service with two configuration files, "share" and
    "redis", run against stores in different states. *)

Module Demo.

(** A configuration structure: a struct, as its fields with their
    values, or a value that encoding/json does not serialize (a channel, a
    function). *)
Inductive Cfg := Fields (fs : list (string * string)) | Unsupported.

(** The value of a field. *)
Fixpoint field (name : string) (fs : list (string * string)) : option string :=
  match fs with
  | [] => None
  | f :: fs' => if decide (f.1 = name) then Some f.2 else field name fs'
  end.

Definition fieldOf (name : string) (v : Cfg) : option string :=
  match v with
  | Fields fs => field name fs
  | Unsupported => None
  end.

(** The text of a structure is its JSON object, written without the
    quotation marks: {secret:local,region:east}.  The structures of the
    demonstration are flat: a field holds a word. *)
Definition member (f : string * string) : string := f.1 +:+ ":" +:+ f.2.

Definition marshal (v : Cfg) : error + string :=
  match v with
  | Fields fs => inr ("{" +:+ String.concat "," (member <$> fs) +:+ "}")
  | Unsupported => inl (LibError "json: unsupported type: chan int")
  end.

(** The pieces of a text between the occurrences of a separator. *)
Fixpoint splitOn (sep : Ascii.ascii) (s : string) : list string :=
  match s with
  | EmptyString => [EmptyString]
  | String a rest =>
      if Ascii.eqb a sep then EmptyString :: splitOn sep rest
      else match splitOn sep rest with
           | [] => [String a EmptyString]
           | piece :: pieces => String a piece :: pieces
           end
  end.

(** A text without the brace that closes it. *)
Fixpoint dropClose (s : string) : option string :=
  match s with
  | EmptyString => None
  | String a rest =>
      match rest with
      | EmptyString => if Ascii.eqb a "}"%char then Some EmptyString else None
      | String _ _ => String a <$> dropClose rest
      end
  end.

Definition parseMember (s : string) : option (string * string) :=
  match splitOn ":"%char s with
  | [name; val] => Some (name, val)
  | _ => None
  end.

(** The members of the object a text is, when it is one. *)
Definition parseObject (data : string) : option (list (string * string)) :=
  match data with
  | String a rest =>
      if Ascii.eqb a "{"%char then
        body ← dropClose rest;
        if decide (body = "") then Some [] else mapM parseMember (splitOn ","%char body)
      else None
  | EmptyString => None
  end.

(** A member sets the field of its name; a struct has no field for a
    member of another name, which is ignored. *)
Definition setField (fs : list (string * string)) (m : string * string)
  : list (string * string) :=
  (λ f, if decide (f.1 = m.1) then (f.1, m.2) else f) <$> fs.

(** [json.Unmarshal] decodes into the structure it is given: the members
    of the object set their fields and the other fields stay as they are;
    null changes nothing; a text that is no JSON value, and an object for
    a value that is no struct, are errors that change nothing. *)
Definition unmarshal (data : string) (v : Cfg) : Cfg * option error :=
  if decide (data = "null") then (v, None)
  else match parseObject data with
       | None =>
           (v, Some (LibError "invalid character looking for beginning of value"))
       | Some members =>
           match v with
           | Fields fs => (Fields (foldl setField fs members), None)
           | Unsupported =>
               (v, Some (LibError
                           "json: cannot unmarshal object into Go value of type chan int"))
           end
       end.

Definition demoJson : Json Cfg :=
  {| Marshal := marshal; Unmarshal := unmarshal |}.

(** The keys are the names under one prefix. *)
Definition demoConstants : Constants :=
  {| BuildKey := λ name, "/chat/config/" +:+ name;
     EnableConfigCenterKey := "enable-config-center";
     LogConfigFileName := "log";
     DiscoveryConfigFileName := "discovery";
     EnvPrefixMap := λ _, "";
     ETCDCONST := "etcd" |}.

Definition key (name : string) : string :=
  BuildKey (Constants := demoConstants) name.

(** A store that answers every request. *)
Definition reliable : list Op → Op → option error := λ _ _, None.

(** A store whose gets of [key] time out. *)
Definition getsFail (key : string) : list Op → Op → option error :=
  λ _ op, if decide (op = OpGet key)
          then Some (LibError "context deadline exceeded") else None.

(** A store whose puts of [key] time out. *)
Definition putsFail (key : string) : list Op → Op → option error :=
  λ _ op, match op with
          | OpPut k _ =>
              if decide (k = key)
              then Some (LibError "context deadline exceeded") else None
          | _ => None
          end.

(** The configuration directory: [config.Load] reads the file of the name. *)
Definition load (files : gmap string Cfg)
    (dir name envPrefix env : string) (out : Cfg) : Cfg * option error :=
  match files !! name with
  | Some v => (v, None)
  | None => (out, Some (LibError "config file not found"))
  end.

Definition enableOf (v : Cfg) : string := default "" (fieldOf "enable" v).

Definition localShare : Cfg := Fields [("secret", "local"); ("region", "east")].
Definition localRedis : Cfg := Fields [("address", "local")].
Definition localLog : Cfg := Fields [("level", "3")].

Definition files (discovery : string) : gmap string Cfg :=
  {[ "share" := localShare; "redis" := localRedis; "log" := localLog;
     "discovery" := Fields [("enable", discovery)] ]}.

Definition command0 : Command :=
  {| flagConf := inr "/etc/chat"; flagTransferIndex := inr 0%Z |}.

(** The command after its configuration has been loaded, with a client. *)
Definition cmd0 : RootCmd :=
  {| command := command0; processName := "chat-rpc"; port := 0;
     prometheusPort := 0; log := localLog; index := 0;
     configPath := "/etc/chat"; etcdClient := Some 7 |}.

Definition opts0 : CmdOpts :=
  {| loggerPrefixName := "openim-chat-log";
     configMap := {[ "share" := localShare; "redis" := localRedis ]} |}.

Definition world (records : gmap string string) : World :=
  {| kv := records; issued := []; warned := []; conns := [] |}.

(** Stores: without the control key; with the two literals; with another
    value; enabled and holding a record of "share"; enabled and holding a
    record of "share" and a record of "redis" that does not decode. *)
Definition emptyStore : gmap string string := ∅.
Definition enabledStore : gmap string string :=
  {[ key "enable-config-center" := "enable" ]}.
Definition disabledStore : gmap string string :=
  {[ key "enable-config-center" := "disable" ]}.
Definition maybeStore : gmap string string :=
  {[ key "enable-config-center" := "maybe" ]}.
Definition sharedStore : gmap string string :=
  {[ key "enable-config-center" := "enable";
     key "share" := "{secret:central}" ]}.
Definition corruptStore : gmap string string :=
  {[ key "enable-config-center" := "enable";
     key "share" := "{secret:central}";
     key "redis" := "not json" ]}.

(** The process: its files, with the given discovery backend; a registry
    whose client is the connection 7; loggers that start. *)
Definition demoEnvironment (discovery : string) : Environment Cfg :=
  {| PrintRuntimeEnvironment := "source";
     Load := load (files discovery);
     zeroDiscovery := Fields [("enable", "")];
     zeroLog := Fields [("level", "")];
     DiscoveryEnable := enableOf;
     NewDiscoveryRegister := λ _ _, Some 7;
     InitLoggerFromConfig := λ _ _ _, None;
     InitConsoleLogger := λ _ _, None |}.

Definition demoStore (faults : list Op → Op → option error) : Store :=
  {| fault := faults |}.

(** The mode, the reconciliation and the bootstrap of the demonstration. *)
Definition modeOf (w : World) : ReconciliationMode :=
  resolveMode (consts := demoConstants) (etcd := demoStore reliable) w.

Definition reconcile (faults : list Op → Op → option error)
    (order : list string) (r : RootCmd) (opts : CmdOpts) (w : World) :=
  updateConfigFromEtcd (consts := demoConstants) (json := demoJson)
    (etcd := demoStore faults) order r opts w.

Definition bootstrap (discovery : string) (r : RootCmd)
    (opts : list (CmdOpts → CmdOpts)) (w : World) :=
  persistentPreRun (consts := demoConstants) (json := demoJson)
    (etcd := demoStore reliable) (proc := demoEnvironment discovery)
    ["share"; "redis"] ["share"; "redis"] r command0 opts w.

(** The command as [NewRootCmd] makes it, and the option of its caller. *)
Definition newCmd : RootCmd :=
  NewRootCmd (proc := demoEnvironment "etcd") "chat-rpc" command0.
Definition withMap : list (CmdOpts → CmdOpts) :=
  [WithConfigMap (configMap opts0)].

(** The runs of the demonstration: the record of "share" adopted; the
    records of "redis" and "log" seeded; the range stopped at the record
    of "redis"; a structure that does not serialize; a map that has the
    name of the log configuration; the control key on "maybe" in a
    bootstrap on etcd; a bootstrap on etcd that succeeds; a bootstrap on
    another discovery backend. *)
Definition adopted := reconcile reliable ["share"; "redis"] cmd0 opts0 (world sharedStore).
Definition seeded := reconcile reliable ["share"; "redis"] cmd0 opts0 (world enabledStore).
Definition aborted := reconcile reliable ["redis"; "share"] cmd0 opts0 (world corruptStore).
Definition unserializable :=
  reconcile reliable ["share"] cmd0
    {| loggerPrefixName := "openim-chat-log";
       configMap := {[ "share" := Unsupported ]} |}
    (world enabledStore).
Definition sharedKey :=
  reconcile (putsFail (key "log")) ["log"] cmd0
    {| loggerPrefixName := "openim-chat-log";
       configMap := {[ "log" := Fields [("level", "9")] ]} |}
    (world enabledStore).
Definition refused := bootstrap "etcd" newCmd withMap (world maybeStore).
Definition completed := bootstrap "etcd" newCmd withMap (world sharedStore).
Definition panicked := bootstrap "kubernetes" newCmd withMap (world sharedStore).

(** More runs: a second reconciliation, in the other order, after the one
    that has seeded; the seeding in the other order; the load of the local
    configuration, and that of a map that names no file; the step of the
    discovery. *)
Definition again :=
  reconcile reliable ["redis"; "share"] seeded.1.1.2 seeded.1.2 seeded.2.
Definition seededSwapped :=
  reconcile reliable ["redis"; "share"] cmd0 opts0 (world enabledStore).
Definition optsMissing : CmdOpts :=
  {| loggerPrefixName := "openim-chat-log";
     configMap := {[ "missing" := Fields [("limit", "1")] ]} |}.
Definition loaded :=
  initializeConfiguration (consts := demoConstants)
    (proc := demoEnvironment "etcd") ["share"; "redis"] command0 opts0 newCmd.
Definition unloaded :=
  initializeConfiguration (consts := demoConstants)
    (proc := demoEnvironment "etcd") ["missing"] command0 optsMissing newCmd.
Definition connected :=
  initEtcd (consts := demoConstants) (proc := demoEnvironment "etcd")
    newCmd (world sharedStore).

End Demo.

(** ** Properties *)

Section Properties.

Context {V : Type}.
Context {consts : Constants} {json : Json V} {etcd : Store}
        {proc : Environment V}.

(** *** The requests *)

Lemma putsOf_app key ops1 ops2 :
  putsOf key (ops1 ++ ops2) = putsOf key ops1 ++ putsOf key ops2.
Proof.
  induction ops1 as [|op ops1 IH]; [done|].
  destruct op as [k|k val|c]; simpl; try done.
  case_decide; simpl; by rewrite IH.
Qed.

Lemma elem_of_putsOf key val ops : val ∈ putsOf key ops ↔ OpPut key val ∈ ops.
Proof.
  induction ops as [|op ops IH]; simpl.
  - split; intros H; inversion H.
  - destruct op as [k|k v|c].
    + rewrite IH, elem_of_cons. split; [by right|by intros [[=]|?]].
    + rewrite (elem_of_cons ops). case_decide as Hk.
      * subst k. rewrite elem_of_cons, IH.
        split; (intros [?|?]; [left; congruence|by right]).
      * rewrite IH. split; [by right|intros [[=]|?]; [congruence|done]].
    + rewrite IH, elem_of_cons. split; [by right|by intros [[=]|?]].
Qed.

(** A get is no put. *)
Lemma putsOf_issue_get k key w :
  putsOf k (issued (issue (OpGet key) w)) = putsOf k (issued w).
Proof. simpl. rewrite putsOf_app. simpl. by rewrite app_nil_r. Qed.

(** The mode of the spec, case by case. *)
Lemma resolveMode_Disabled w :
  resolveMode w = Disabled ↔
    is_Some (fault (issued w) (OpGet (BuildKey EnableConfigCenterKey)))
    ∨ kv w !! BuildKey EnableConfigCenterKey = None
    ∨ kv w !! BuildKey EnableConfigCenterKey = Some Disable.
Proof.
  unfold resolveMode, Disable.
  destruct (fault _ _) as [err|]; [split; eauto|].
  destruct (kv w !! _) as [val|]; [|split; eauto].
  repeat case_decide; subst; (split; [try done; eauto|]);
    (intros [Hm|[Hm|Hm]]; [by destruct Hm|done|by simplify_eq]).
Qed.

Lemma resolveMode_Enabled w :
  resolveMode w = Enabled ↔
    fault (issued w) (OpGet (BuildKey EnableConfigCenterKey)) = None
    ∧ kv w !! BuildKey EnableConfigCenterKey = Some Enable.
Proof.
  unfold resolveMode, Enable.
  destruct (fault _ _) as [err|]; [split; [done|by intros [? _]]|].
  destruct (kv w !! _) as [val|]; [|split; [done|by intros [_ ?]]].
  repeat case_decide; subst; (split; [done|]); intros [_ ?]; by simplify_eq.
Qed.

Lemma resolveMode_Unknown w :
  resolveMode w = Unknown ↔
    fault (issued w) (OpGet (BuildKey EnableConfigCenterKey)) = None
    ∧ ∃ val, kv w !! BuildKey EnableConfigCenterKey = Some val
             ∧ val ≠ Enable ∧ val ≠ Disable.
Proof.
  unfold resolveMode, Enable, Disable.
  destruct (fault _ _) as [err|]; [split; [done|by intros [? _]]|].
  destruct (kv w !! _) as [val|]; [|split; [done|by intros [_ (? & ? & _)]]].
  repeat case_decide; subst; (split; [try done; eauto|]);
    intros [_ (? & ? & ? & ?)]; by simplify_eq.
Qed.

(** *** One entry *)

Lemma update_case name v w : updateCase name v w (update name v w).
Proof.
  unfold update, Get.
  destruct (fault (issued w) (OpGet (BuildKey name))) as [err|] eqn:Hget.
  { by apply GetFailed. }
  destruct (kv w !! BuildKey name) as [B|] eqn:Hkv.
  - simpl. destruct (Unmarshal B v) as [v' [err|]] eqn:Hun.
    + by eapply DecodeFailed.
    + by eapply Adopted.
  - destruct (Marshal v) as [err|data] eqn:Hma.
    { by apply MarshalFailed. }
    unfold Put. simpl.
    destruct (fault (issued w ++ [OpGet (BuildKey name)])
                    (OpPut (BuildKey name) data)) as [err|] eqn:Hput.
    + by apply PutFailed.
    + by apply Seeded.
Qed.

(** Case analysis on a run of [update]. *)
Ltac update_inv H :=
  match type of H with
  | update ?name ?v ?w = _ =>
      let C := fresh "Hcase" in
      pose proof (update_case name v w) as C; rewrite H in C;
      inversion C; subst; clear C
  end.

(** [update] never overwrites a record and never closes a connection. *)
Lemma update_kv_present name v w res v' w' k B :
  update name v w = (res, v', w') → kv w !! k = Some B → kv w' !! k = Some B.
Proof.
  intros Hrun Hk. update_inv Hrun; simpl; try done.
  destruct (decide (BuildKey name = k)) as [<-|Hne]; [congruence|].
  by rewrite lookup_insert_ne.
Qed.

(** No put is issued for a key that has a record. *)
Lemma update_puts_present name v w res v' w' k B :
  update name v w = (res, v', w') → kv w !! k = Some B →
  putsOf k (issued w') = putsOf k (issued w).
Proof.
  intros Hrun Hk. update_inv Hrun; simpl;
    rewrite ?putsOf_app; simpl; rewrite ?app_nil_r; try done;
    (case_decide; [subst; congruence|by rewrite app_nil_r]).
Qed.

(** An entry with another key leaves the key alone. *)
Lemma update_other_key name v w res v' w' k :
  update name v w = (res, v', w') → BuildKey name ≠ k →
  kv w' !! k = kv w !! k ∧ putsOf k (issued w') = putsOf k (issued w).
Proof.
  intros Hrun Hne. update_inv Hrun; simpl;
    rewrite ?putsOf_app; simpl; rewrite ?app_nil_r, ?lookup_insert_ne by done;
    try done; (case_decide; [done|by rewrite app_nil_r]).
Qed.

(** A structure changes only by the decoding of the record of its key. *)
Lemma update_value name v w res v' w' :
  update name v w = (res, v', w') →
  v' = v ∨ ∃ B, kv w !! BuildKey name = Some B ∧ (Unmarshal B v).1 = v'.
Proof.
  intros Hrun. update_inv Hrun; eauto;
    right; eexists; split; eauto;
    match goal with H : Unmarshal _ _ = _ |- _ => by rewrite H end.
Qed.

Lemma update_value_ok name v w v' w' :
  update name v w = (None, v', w') →
  v' = v ∨ ∃ B, kv w !! BuildKey name = Some B ∧ Unmarshal B v = (v', None).
Proof.
  intros Hrun. update_inv Hrun; eauto.
Qed.

(** *** The range over the configuration map *)

Lemma rangeUpdate_cons name rest m w :
  rangeUpdate (name :: rest) m w =
    match m !! name with
    | None => rangeUpdate rest m w
    | Some v =>
        match update name v w with
        | (Some err, v', w') => (Some err, <[name := v']> m, w')
        | (None, v', w') => rangeUpdate rest (<[name := v']> m) w'
        end
    end.
Proof. done. Qed.

(** One step of a run of the range: the name is no key, or [update]
    fails on it, or [update] succeeds and the range goes on. *)
Ltac range_step Hrun v1 w1 Hlook Hup :=
  rewrite rangeUpdate_cons in Hrun;
  match type of Hrun with
  | match ?m !! ?n with _ => _ end = _ =>
      destruct (m !! n) as [?v0|] eqn:Hlook;
      [ match type of Hrun with
        | match update ?n' ?v' ?w' with _ => _ end = _ =>
            destruct (update n' v' w') as [[[?err|] v1] w1] eqn:Hup
        end | ]
  end.

Lemma rangeOf_NoDup (m : gmap string V) order : rangeOf m order → NoDup order.
Proof. intros ->. apply NoDup_fst_map_to_list. Qed.

Lemma rangeOf_elem_of (m : gmap string V) order name :
  rangeOf m order → name ∈ order ↔ is_Some (m !! name).
Proof.
  intros ->. rewrite list_elem_of_fmap. split.
  - intros [[n v] [-> Hin]]. apply elem_of_map_to_list in Hin. by exists v.
  - intros [v Hv]. exists (name, v). split; [done|].
    by apply elem_of_map_to_list.
Qed.

(** A name outside the range keeps its structure. *)
Lemma rangeUpdate_not_in order : ∀ m w res m' w' name,
  name ∉ order → rangeUpdate order m w = (res, m', w') →
  m' !! name = m !! name.
Proof.
  induction order as [|n rest IH]; intros m w res m' w' name Hnot Hrun.
  { by simplify_eq/=. }
  apply not_elem_of_cons in Hnot as [Hne Hnot].
  range_step Hrun v1 w1 Hlook Hup.
  - simplify_eq. by rewrite lookup_insert_ne.
  - erewrite IH by eauto. by rewrite lookup_insert_ne.
  - eauto.
Qed.

(** The range never overwrites a record, and puts nothing under a key that
    has one. *)
Lemma rangeUpdate_kv_present order : ∀ m w res m' w' k B,
  rangeUpdate order m w = (res, m', w') → kv w !! k = Some B →
  kv w' !! k = Some B ∧ putsOf k (issued w') = putsOf k (issued w).
Proof.
  induction order as [|n rest IH]; intros m w res m' w' k B Hrun Hk.
  { by simplify_eq/=. }
  range_step Hrun v1 w1 Hlook Hup.
  - simplify_eq. eauto using update_kv_present, update_puts_present.
  - destruct (IH _ _ _ _ _ k B Hrun) as [Hkv Hputs];
      [by eapply update_kv_present|].
    split; [done|]. rewrite Hputs. by eapply update_puts_present.
  - eauto.
Qed.

(** Entries with other keys leave a key alone. *)
Lemma rangeUpdate_other_keys order : ∀ m w res m' w' k,
  (∀ n, n ∈ order → BuildKey n ≠ k) →
  rangeUpdate order m w = (res, m', w') →
  kv w' !! k = kv w !! k ∧ putsOf k (issued w') = putsOf k (issued w).
Proof.
  induction order as [|n rest IH]; intros m w res m' w' k Hkeys Hrun.
  { by simplify_eq/=. }
  assert (BuildKey n ≠ k) as Hn by (apply Hkeys; left).
  assert (∀ n', n' ∈ rest → BuildKey n' ≠ k) as Hrest
    by (intros; apply Hkeys; by right).
  range_step Hrun v1 w1 Hlook Hup.
  - simplify_eq. by eapply update_other_key.
  - destruct (update_other_key _ _ _ _ _ _ k Hup Hn) as [Hkv Hputs].
    destruct (IH _ _ _ _ _ k Hrest Hrun) as [Hkv' Hputs'].
    split; congruence.
  - eauto.
Qed.

(** In a range that succeeds, an entry whose key has a record that the
    store returns has adopted it. *)
Lemma rangeUpdate_found order : ∀ m w m' w' name v B,
  NoDup order → name ∈ order → m !! name = Some v →
  kv w !! BuildKey name = Some B →
  (∀ h, fault h (OpGet (BuildKey name)) = None) →
  rangeUpdate order m w = (None, m', w') →
  ∃ v', Unmarshal B v = (v', None) ∧ m' !! name = Some v'.
Proof.
  induction order as [|n rest IH];
    intros m w m' w' name v B Hnd Hin Hv Hk Hget Hrun.
  { inversion Hin. }
  apply NoDup_cons in Hnd as [Hnot Hnd].
  range_step Hrun v1 w1 Hlook Hup; [done| |].
  - destruct (decide (n = name)) as [->|Hne].
    + simplify_eq. pose proof (Hget (issued w)).
      update_inv Hup; try congruence.
      exists v1. split; [congruence|].
      erewrite rangeUpdate_not_in by eauto. apply lookup_insert_eq.
    + apply elem_of_cons in Hin as [?|Hin]; [congruence|].
      apply (IH (<[n:=v1]> m) w1 m' w' name v B);
        [done|done|by rewrite lookup_insert_ne
        |by eapply update_kv_present|done|done].
  - apply elem_of_cons in Hin as [->|Hin]; [congruence|]. eauto.
Qed.

(** In a range that succeeds, each structure is the one it was, or the
    decoding of the record of its key into the one it was. *)
Lemma rangeUpdate_all_or_nothing order : ∀ m w m' w' name v,
  NoDup order → m !! name = Some v →
  rangeUpdate order m w = (None, m', w') →
  ∃ v', m' !! name = Some v'
        ∧ (v' = v ∨ ∃ B, kv w' !! BuildKey name = Some B
                         ∧ Unmarshal B v = (v', None)).
Proof.
  induction order as [|n rest IH]; intros m w m' w' name v Hnd Hv Hrun.
  { simplify_eq/=. eauto. }
  apply NoDup_cons in Hnd as [Hnot Hnd].
  range_step Hrun v1 w1 Hlook Hup; [done| |by eauto].
  destruct (decide (n = name)) as [->|Hne].
  - simplify_eq. exists v1. split.
    { erewrite rangeUpdate_not_in by eauto. apply lookup_insert_eq. }
    destruct (update_value_ok _ _ _ _ _ Hup) as [->|(B & HB & Hun)]; [by left|].
    right. exists B. split; [|done].
    eapply rangeUpdate_kv_present; eauto using update_kv_present.
  - apply (IH (<[n:=v1]> m) w1 m' w' name v);
      [done|by rewrite lookup_insert_ne|done].
Qed.

(** In a range that succeeds, an entry whose key has no record, and is
    the key of no other entry, has put its structure once and kept it. *)
Lemma rangeUpdate_seed order : ∀ m w m' w' name v,
  NoDup order → name ∈ order → m !! name = Some v →
  kv w !! BuildKey name = None →
  (∀ h, fault h (OpGet (BuildKey name)) = None) →
  (∀ n, n ∈ order → n ≠ name → BuildKey n ≠ BuildKey name) →
  rangeUpdate order m w = (None, m', w') →
  ∃ data, Marshal v = inr data
          ∧ putsOf (BuildKey name) (issued w')
            = putsOf (BuildKey name) (issued w) ++ [data]
          ∧ m' !! name = Some v.
Proof.
  induction order as [|n rest IH];
    intros m w m' w' name v Hnd Hin Hv Hk Hget Hkeys Hrun.
  { inversion Hin. }
  apply NoDup_cons in Hnd as [Hnot Hnd].
  range_step Hrun v1 w1 Hlook Hup; [done| |].
  - destruct (decide (n = name)) as [->|Hne].
    + simplify_eq. pose proof (Hget (issued w)).
      assert (∀ n', n' ∈ rest → BuildKey n' ≠ BuildKey name) as Hrest.
      { intros n' Hn'. apply Hkeys; [by right|]. by intros ->. }
      destruct (rangeUpdate_other_keys _ _ _ _ _ _ _ Hrest Hrun) as [_ Hputs].
      pose proof (rangeUpdate_not_in _ _ _ _ _ _ _ Hnot Hrun) as Hsame.
      rewrite lookup_insert_eq in Hsame.
      update_inv Hup; try congruence; exists data;
        (split; [done|split; [|done]]); rewrite Hputs; simpl;
        rewrite !putsOf_app; simpl; rewrite decide_True by done;
        by rewrite app_nil_r.
    + apply elem_of_cons in Hin as [?|Hin]; [congruence|].
      assert (BuildKey n ≠ BuildKey name) as Hkn by (apply Hkeys; [left|]; done).
      destruct (update_other_key _ _ _ _ _ _ _ Hup Hkn) as [Hkv Hputs].
      rewrite <- Hputs.
      apply (IH (<[n:=v1]> m) w1 m' w' name v);
        [done|done|by rewrite lookup_insert_ne|congruence|done| |done].
      intros n' Hn'. apply Hkeys. by right.
  - apply elem_of_cons in Hin as [->|Hin]; [congruence|].
    apply (IH m w m' w' name v); try done.
    intros n' Hn'. apply Hkeys. by right.
Qed.

(** An entry whose get fails keeps its structure, however the range ends. *)
Lemma rangeUpdate_get_fails order : ∀ m w res m' w' name err,
  (∀ h, fault h (OpGet (BuildKey name)) = Some err) →
  rangeUpdate order m w = (res, m', w') → m' !! name = m !! name.
Proof.
  induction order as [|n rest IH]; intros m w res m' w' name err Hget Hrun.
  { by simplify_eq/=. }
  assert (∀ v0 res1 v1 w1, m !! n = Some v0 →
            update n v0 w = (res1, v1, w1) →
            <[n:=v1]> m !! name = m !! name) as Hkeep.
  { intros v0 res1 v1 w1 Hlook Hup.
    destruct (decide (n = name)) as [->|Hne]; [|by rewrite lookup_insert_ne].
    pose proof (Hget (issued w)).
    update_inv Hup; try congruence. by rewrite lookup_insert_eq. }
  range_step Hrun v1 w1 Hlook Hup.
  - simplify_eq. eauto.
  - erewrite IH by eauto. eauto.
  - eauto.
Qed.

(** While the puts of a key fail, the key gets no record, and an entry of
    that key keeps its structure. *)
Lemma update_put_fails n v w res v1 w1 k err :
  (∀ h val, fault h (OpPut k val) = Some err) →
  kv w !! k = None →
  update n v w = (res, v1, w1) →
  kv w1 !! k = None ∧ (BuildKey n = k → v1 = v).
Proof.
  intros Hput Hk Hup.
  update_inv Hup; simpl; try (split; [done|congruence]).
  destruct (decide (BuildKey n = k)) as [<-|Hne].
  - pose proof (Hput (issued w ++ [OpGet (BuildKey n)]) data). congruence.
  - by rewrite lookup_insert_ne.
Qed.

Lemma rangeUpdate_put_fails order : ∀ m w res m' w' name err,
  (∀ h val, fault h (OpPut (BuildKey name) val) = Some err) →
  kv w !! BuildKey name = None →
  rangeUpdate order m w = (res, m', w') →
  m' !! name = m !! name ∧ kv w' !! BuildKey name = None.
Proof.
  induction order as [|n rest IH]; intros m w res m' w' name err Hput Hk Hrun.
  { by simplify_eq/=. }
  assert (∀ v0 res1 v1 w1, m !! n = Some v0 →
            update n v0 w = (res1, v1, w1) →
            <[n:=v1]> m !! name = m !! name ∧ kv w1 !! BuildKey name = None)
    as Hkeep.
  { intros v0 res1 v1 w1 Hlook Hup.
    destruct (update_put_fails _ _ _ _ _ _ _ _ Hput Hk Hup) as [Hk1 Hv].
    split; [|done].
    destruct (decide (n = name)) as [->|Hne]; [|by rewrite lookup_insert_ne].
    rewrite Hv by done. by rewrite lookup_insert_eq. }
  range_step Hrun v1 w1 Hlook Hup.
  - simplify_eq. eauto.
  - destruct (Hkeep _ _ _ _ eq_refl Hup) as [Hm Hk1].
    destruct (IH _ _ _ _ _ name err Hput Hk1 Hrun) as [Hm' Hk'].
    split; congruence.
  - eauto.
Qed.

(** *** The whole reconciliation *)

Lemma reconcile_case order r opts w :
  reconcileCase order r opts w (updateConfigFromEtcd order r opts w).
Proof.
  unfold updateConfigFromEtcd.
  destruct (etcdClient r) as [c|] eqn:Hc; [|by apply NoClient].
  unfold Get.
  destruct (fault (issued w) (OpGet (BuildKey EnableConfigCenterKey)))
    as [err|] eqn:Hget.
  { eapply ModeDisabled; try done. unfold resolveMode. by rewrite Hget. }
  destruct (kv w !! BuildKey EnableConfigCenterKey) as [val|] eqn:Hkv.
  2: { eapply ModeDisabled; try done. unfold resolveMode. by rewrite Hget, Hkv. }
  simpl. case_decide as Hdis.
  { eapply ModeDisabled; try done.
    unfold resolveMode. rewrite Hget, Hkv. by rewrite decide_True. }
  case_decide as Hen.
  { eapply ModeUnknown; try done.
    unfold resolveMode. rewrite Hget, Hkv.
    by rewrite decide_False, decide_False. }
  assert (resolveMode w = Enabled) as Hmode.
  { unfold resolveMode. rewrite Hget, Hkv. rewrite decide_False by done.
    rewrite decide_True; [done|]. by destruct (decide (val = Enable)). }
  destruct (rangeUpdate _ _ _) as [[[err|] m] w2] eqn:Hrange.
  { by eapply RangeFailed. }
  destruct (update LogConfigFileName (log r) w2) as [[res v] w3] eqn:Hlog.
  destruct res; by eapply LogUpdated.
Qed.

(** Case analysis on a run of [updateConfigFromEtcd]. *)
Ltac reconcile_inv H :=
  match type of H with
  | updateConfigFromEtcd ?order ?r ?opts ?w = _ =>
      let C := fresh "Hcase" in
      pose proof (reconcile_case order r opts w) as C; rewrite H in C;
      inversion C; subst; clear C
  end.

(** An entry whose get fails keeps its structure through the whole
    reconciliation. *)
Lemma reconcile_get_fails order r opts w res r' opts' w' e err :
  (∀ h, fault h (OpGet (BuildKey (entryName e))) = Some err) →
  updateConfigFromEtcd order r opts w = (res, r', opts', w') →
  entryValue r' opts' e = entryValue r opts e.
Proof.
  intros Hget Hrun. reconcile_inv Hrun; try done.
  - destruct e as [name|]; [|done]. simpl. by eapply rangeUpdate_get_fails.
  - destruct e as [name|]; simpl in *.
    + by eapply rangeUpdate_get_fails.
    + pose proof (Hget (issued w2)).
      match goal with H : update _ _ _ = _ |- _ => update_inv H end;
        congruence.
Qed.

(** While the puts of its key fail, an entry whose key has no record keeps
    its structure through the whole reconciliation. *)
Lemma reconcile_put_fails order r opts w res r' opts' w' e err :
  (∀ h val, fault h (OpPut (BuildKey (entryName e)) val) = Some err) →
  kv w !! BuildKey (entryName e) = None →
  updateConfigFromEtcd order r opts w = (res, r', opts', w') →
  entryValue r' opts' e = entryValue r opts e.
Proof.
  intros Hput Hk Hrun.
  assert (kv (issue (OpGet (BuildKey EnableConfigCenterKey)) w)
             !! BuildKey (entryName e) = None) as Hk1 by done.
  reconcile_inv Hrun; try done.
  - destruct e as [name|]; [|done]. simpl.
    by eapply rangeUpdate_put_fails.
  - match goal with H : rangeUpdate _ _ _ = _ |- _ =>
      destruct (rangeUpdate_put_fails _ _ _ _ _ _ _ _ Hput Hk1 H) as [Hm Hk2]
    end.
    destruct e as [name|]; simpl in *; [done|].
    match goal with H : update _ _ _ = _ |- _ =>
      destruct (update_put_fails _ _ _ _ _ _ _ _ Hput Hk2 H) as [_ Hv]
    end.
    by rewrite Hv.
Qed.

(** *** A reconciliation that aborts *)


(** Every error of the range is the error [update] returns at a name
    where the range stops. *)
Lemma rangeUpdate_error_stops order : ∀ m w err m' w',
  rangeUpdate order m w = (Some err, m', w') →
  ∃ before name after, stopsAt order m w before name after err.
Proof.
  induction order as [|n rest IH]; intros m w err m' w' Hrun; [done|].
  range_step Hrun v1 w1 Hlook Hup.
  - simplify_eq. exists [], n, rest. split; [done|].
    exists m, w, v0. by rewrite Hup.
  - destruct (IH _ _ _ _ _ Hrun)
      as (before & name & after & -> & m2 & w2 & v2 & Hbefore & Hv2 & Herr).
    exists (n :: before), name, after. split; [done|].
    exists m2, w2, v2. by rewrite rangeUpdate_cons, Hlook, Hup.
  - destruct (IH _ _ _ _ _ Hrun)
      as (before & name & after & -> & m2 & w2 & v2 & Hbefore & Hv2 & Herr).
    exists (n :: before), name, after. split; [done|].
    exists m2, w2, v2. by rewrite rangeUpdate_cons, Hlook.
Qed.



(** An entry whose structure does not serialize, and whose key has no
    record and is the key of no other entry: it keeps its structure, its
    key gets no record and no put, and a range that reaches it, with the
    get of its key answered, returns an error. *)
Lemma rangeUpdate_marshal_fails order : ∀ m w res m' w' name v merr,
  m !! name = Some v → Marshal v = inl merr →
  kv w !! BuildKey name = None →
  (∀ n, n ∈ order → n ≠ name → BuildKey n ≠ BuildKey name) →
  rangeUpdate order m w = (res, m', w') →
  m' !! name = Some v
  ∧ kv w' !! BuildKey name = None
  ∧ putsOf (BuildKey name) (issued w') = putsOf (BuildKey name) (issued w)
  ∧ (name ∈ order → (∀ h, fault h (OpGet (BuildKey name)) = None) →
     is_Some res).
Proof.
  induction order as [|n rest IH];
    intros m w res m' w' name v merr Hv Hma Hk Hkeys Hrun.
  { simplify_eq/=. split_and!; try done. by intros ?%elem_of_nil. }
  assert (∀ n', n' ∈ rest → n' ≠ name → BuildKey n' ≠ BuildKey name) as Hrest.
  { intros n' Hn'. apply Hkeys. by right. }
  range_step Hrun v1 w1 Hlook Hup.
  - injection Hrun as <- <- <-.
    destruct (decide (n = name)) as [->|Hne].
    + rewrite lookup_insert_eq. rewrite Hv in Hlook. injection Hlook as <-.
      update_inv Hup; try congruence.
      split_and!; try done. by rewrite putsOf_issue_get.
    + rewrite lookup_insert_ne by done.
      assert (BuildKey n ≠ BuildKey name) as Hkn
        by (apply Hkeys; [by left|done]).
      destruct (update_other_key _ _ _ _ _ _ _ Hup Hkn) as [Hkv Hputs].
      split_and!; try done; congruence.
  - destruct (decide (n = name)) as [->|Hne].
    + rewrite Hv in Hlook. injection Hlook as <-.
      update_inv Hup; try congruence.
      match type of Hrun with
      | rangeUpdate _ (<[_ := ?x]> _) ?wx = _ =>
          destruct (IH _ wx _ _ _ name x merr (lookup_insert_eq _ _ _)
                       Hma Hk Hrest Hrun) as (Hv' & Hk' & Hputs' & _)
      end.
      split_and!; try done.
      * rewrite Hputs'. unfold afterGetError. simpl.
        rewrite putsOf_app. simpl. by rewrite app_nil_r.
      * intros _ Hget. congruence.
    + assert (BuildKey n ≠ BuildKey name) as Hkn
        by (apply Hkeys; [by left|done]).
      destruct (update_other_key _ _ _ _ _ _ _ Hup Hkn) as [Hkv Hputs].
      assert (<[n := v1]> m !! name = Some v) as Hv1
        by (by rewrite lookup_insert_ne).
      assert (kv w1 !! BuildKey name = None) as Hk1 by congruence.
      destruct (IH _ _ _ _ _ name v merr Hv1 Hma Hk1 Hrest Hrun)
        as (Hv' & Hk' & Hputs' & Hres').
      split_and!; try done; [congruence|].
      intros Hin Hget. apply Hres'; [|done].
      apply elem_of_cons in Hin as [->|Hin]; done.
  - destruct (IH _ _ _ _ _ name v merr Hv Hma Hk Hrest Hrun)
      as (Hv' & Hk' & Hputs' & Hres').
    split_and!; try done.
    intros Hin Hget. apply Hres'; [|done].
    apply elem_of_cons in Hin as [->|Hin]; [congruence|done].
Qed.

(** With the mode Enabled, an entry whose structure does not serialize,
    whose key has no record and is the key of no other entry, and whose
    get is answered: the reconciliation returns an error, the argument
    error of the serialization unless it has aborted before the entry;
    the entry keeps its structure and no put is issued for its key. *)
Lemma reconcile_marshal_fails order r opts w c e v merr :
  etcdClient r = Some c →
  resolveMode w = Enabled →
  rangeOf (configMap opts) order →
  entryValue r opts e = Some v →
  kv w !! BuildKey (entryName e) = None →
  (∀ h, fault h (OpGet (BuildKey (entryName e))) = None) →
  Marshal v = inl merr →
  (∀ e', e' ≠ e → is_Some (entryValue r opts e') →
         BuildKey (entryName e') ≠ BuildKey (entryName e)) →
  ∃ err r' opts' w',
    updateConfigFromEtcd order r opts w = (Some err, r', opts', w')
    ∧ (err = ErrArgsWithDetail merr ∨ abortsBefore order opts w e err)
    ∧ entryValue r' opts' e = Some v
    ∧ putsOf (BuildKey (entryName e)) (issued w')
      = putsOf (BuildKey (entryName e)) (issued w).
Proof.
  intros Hc Hmode Horder Hv Hk Hget Hma Hown.
  pose proof (rangeOf_NoDup _ _ Horder) as Hnd.
  destruct (updateConfigFromEtcd order r opts w)
    as [[[res r'] opts'] w'] eqn:Hrun.
  reconcile_inv Hrun; try congruence;
    match goal with H : rangeUpdate _ _ _ = _ |- _ => rename H into Hrange end;
    remember (issue (OpGet (BuildKey EnableConfigCenterKey)) w) as w1 eqn:Hw1;
    assert (kv w1 !! BuildKey (entryName e) = None) as Hk1 by (by subst w1);
    assert (∀ k, putsOf k (issued w1) = putsOf k (issued w)) as Hp1
      by (intros k; subst w1; apply putsOf_issue_get).
  - (* the range has stopped *)
    eexists _, _, _, _. split; [done|].
    destruct (rangeUpdate_error_stops _ _ _ _ _ _ Hrange)
      as (before & name & after & Hstop).
    destruct e as [n|]; simpl in *.
    + assert (∀ n', n' ∈ order → n' ≠ n → BuildKey n' ≠ BuildKey n) as Hothers.
      { intros n' Hn' Hne. apply (Hown (ConfigEntry n')); [congruence|].
        simpl. by eapply rangeOf_elem_of. }
      destruct (rangeUpdate_marshal_fails _ _ _ _ _ _ _ _ _ Hv Hma Hk1 Hothers Hrange)
        as (Hv' & _ & Hputs & _).
      split; [|split; [done|by rewrite Hputs, Hp1]].
      assert (n ∈ order) as Hin by (eapply rangeOf_elem_of; eauto).
      destruct Hstop as (Hsplit & m1 & w0 & v1 & Hbefore & Hv1 & Herr).
      rewrite Hsplit in Hin, Hnd, Hothers.
      apply elem_of_app in Hin as [Hin|Hin].
      * (* the range has gone through the entry without error *)
        assert (∀ n', n' ∈ before → n' ≠ n → BuildKey n' ≠ BuildKey n) as Hb.
        { intros n' Hn'. apply Hothers. apply elem_of_app. by left. }
        destruct (rangeUpdate_marshal_fails _ _ _ _ _ _ _ _ _ Hv Hma Hk1 Hb Hbefore)
          as (_ & _ & _ & Hres).
        by destruct (Hres Hin Hget).
      * apply elem_of_cons in Hin as [->|Hin].
        -- (* the range has stopped at the entry *)
           left.
           apply NoDup_app in Hnd as (_ & Hdisj & _).
           assert (name ∉ before) as Hnotin.
           { intros Hin. apply (Hdisj _ Hin). by left. }
           assert (m1 !! name = Some v) as Hv1'.
           { by rewrite (rangeUpdate_not_in _ _ _ _ _ _ _ Hnotin Hbefore). }
           assert (v1 = v) as -> by congruence.
           assert (kv w0 !! BuildKey name = None) as Hk0.
           { assert (∀ n', n' ∈ before → BuildKey n' ≠ BuildKey name) as Hb.
             { intros n' Hn'. apply Hothers; [apply elem_of_app; by left|].
               by intros ->. }
             destruct (rangeUpdate_other_keys _ _ _ _ _ _ _ Hb Hbefore)
               as [Hkv _].
             by rewrite Hkv. }
           destruct (update name v w0) as [[ures v2] w2] eqn:Hup.
           simpl in Herr. subst ures. pose proof (Hget (issued w0)).
           update_inv Hup; congruence.
        -- right. exists before, name, after. split; [|done].
           subst w1. split; [done|]. by exists m1, w0, v1.
    + injection Hv as <-.
      split; [right; subst w1; by exists before, name, after|]. split; [done|].
      assert (∀ n, n ∈ order → BuildKey n ≠ BuildKey LogConfigFileName)
        as Hothers.
      { intros n Hn. apply (Hown (ConfigEntry n)); [done|].
        simpl. by eapply rangeOf_elem_of. }
      destruct (rangeUpdate_other_keys _ _ _ _ _ _ _ Hothers Hrange)
        as [_ Hputs].
      by rewrite Hputs, Hp1.
  - (* the range has returned no error *)
    match goal with H : update _ _ _ = _ |- _ => rename H into Hlog end.
    destruct e as [n|]; simpl in *.
    + assert (∀ n', n' ∈ order → n' ≠ n → BuildKey n' ≠ BuildKey n) as Hothers.
      { intros n' Hn' Hne. apply (Hown (ConfigEntry n')); [congruence|].
        simpl. by eapply rangeOf_elem_of. }
      assert (n ∈ order) as Hin by (eapply rangeOf_elem_of; eauto).
      destruct (rangeUpdate_marshal_fails _ _ _ _ _ _ _ _ _ Hv Hma Hk1 Hothers Hrange)
        as (_ & _ & _ & Hres).
      by destruct (Hres Hin Hget).
    + injection Hv as <-.
      assert (∀ n, n ∈ order → BuildKey n ≠ BuildKey LogConfigFileName)
        as Hothers.
      { intros n Hn. apply (Hown (ConfigEntry n)); [done|].
        simpl. by eapply rangeOf_elem_of. }
      destruct (rangeUpdate_other_keys _ _ _ _ _ _ _ Hothers Hrange)
        as [Hkv Hputs].
      pose proof (Hget (issued w2)).
      assert (kv w2 !! BuildKey LogConfigFileName = None) as Hk2.
      { by rewrite Hkv. }
      update_inv Hlog; try congruence.
      eexists _, _, _, _. split; [done|].
      split; [left; congruence|]. split; [done|].
      by rewrite putsOf_issue_get, Hputs, Hp1.
Qed.

(** *** The claims of the specification *)

(** C1 (amended). After a reconciliation that succeeds, every entry of
    the configuration map, and the log configuration, holds the structure
    it held before, or the structure [json.Unmarshal] has made of that
    structure, without error, from the record the store holds under its
    key.  [json.Unmarshal] decodes into the structure it is given: what the
    record leaves out stays as it was loaded. *)
Theorem reconciled_entry_is_local_or_decoded order r opts w r' opts' w' e v :
  rangeOf (configMap opts) order →
  updateConfigFromEtcd order r opts w = (None, r', opts', w') →
  entryValue r opts e = Some v →
  ∃ v', entryValue r' opts' e = Some v'
        ∧ (v' = v
           ∨ ∃ B, kv w' !! BuildKey (entryName e) = Some B
                  ∧ Unmarshal B v = (v', None)).
Proof.
  intros Horder Hrun Hv. apply rangeOf_NoDup in Horder.
  reconcile_inv Hrun; eauto.
  match goal with H : rangeUpdate _ _ _ = _ |- _ => rename H into Hrange end.
  match goal with H : update _ _ _ = _ |- _ => rename H into Hlog end.
  destruct e as [name|]; simpl in *.
  - destruct (rangeUpdate_all_or_nothing _ _ _ _ _ _ _ Horder Hv Hrange)
      as (v' & Hv' & [->|(B & HB & Hun)]); eauto.
    exists v'. split; [done|]. right. exists B.
    eauto using update_kv_present.
  - simplify_eq. eexists; split; [done|].
    destruct (update_value_ok _ _ _ _ _ Hlog) as [->|(B & HB & Hun)]; eauto.
    right. exists B. eauto using update_kv_present.
Qed.

(** C2. When the mode resolves to Disabled (the get of the control key
    fails, or finds no record, or finds the literal "disable"), the
    reconciliation returns no error, leaves the command and the
    configuration map as they are, and issues the get of the control key
    and no other request. *)
Theorem disabled_mode_is_a_noop order r opts w c :
  etcdClient r = Some c →
  resolveMode w = Disabled →
  ∃ w', updateConfigFromEtcd order r opts w = (None, r, opts, w')
        ∧ kv w' = kv w
        ∧ issued w' = issued w ++ [OpGet (BuildKey EnableConfigCenterKey)].
Proof.
  intros Hc Hmode.
  destruct (updateConfigFromEtcd order r opts w) as [[[res r'] opts'] w'] eqn:Hrun.
  reconcile_inv Hrun; try congruence. eauto.
Qed.

(** C3. When the control key holds a value that is neither "enable" nor
    "disable", the reconciliation returns the error of the unknown mode
    and leaves the command and the configuration map as they are. *)
Theorem unknown_mode_aborts order r opts w c :
  etcdClient r = Some c →
  resolveMode w = Unknown →
  updateConfigFromEtcd order r opts w
  = (Some (ErrsNew "unknown EnableConfigCenter value"), r, opts,
     issue (OpGet (BuildKey EnableConfigCenterKey)) w).
Proof.
  intros Hc Hmode.
  destruct (updateConfigFromEtcd order r opts w) as [[[res r'] opts'] w'] eqn:Hrun.
  reconcile_inv Hrun; congruence.
Qed.



(** C6. With the mode Enabled: when the store holds, and returns, a record
    for the key of an entry that does not decode into the structure of the
    entry, the reconciliation returns an error to its caller. *)
Theorem corrupt_record_is_fatal order r opts w c e v B :
  etcdClient r = Some c →
  resolveMode w = Enabled →
  rangeOf (configMap opts) order →
  entryValue r opts e = Some v →
  kv w !! BuildKey (entryName e) = Some B →
  (∀ h, fault h (OpGet (BuildKey (entryName e))) = None) →
  is_Some (Unmarshal B v).2 →
  ∃ err r' opts' w',
    updateConfigFromEtcd order r opts w = (Some err, r', opts', w').
Proof.
  intros Hc Hmode Horder Hv HB Hget [uerr Hun].
  pose proof (rangeOf_NoDup _ _ Horder) as Hnd.
  destruct (updateConfigFromEtcd order r opts w)
    as [[[[err|] r'] opts'] w'] eqn:Hrun; [by eauto|exfalso].
  reconcile_inv Hrun; try congruence.
  match goal with H : rangeUpdate _ _ _ = _ |- _ => rename H into Hrange end.
  match goal with H : update _ _ _ = _ |- _ => rename H into Hlog end.
  remember (issue (OpGet (BuildKey EnableConfigCenterKey)) w) as w1 eqn:Hw1.
  assert (kv w1 !! BuildKey (entryName e) = Some B) as HB1 by (by subst w1).
  destruct e as [name|]; simpl in *.
  - assert (name ∈ order) as Hin by (eapply rangeOf_elem_of; eauto).
    destruct (rangeUpdate_found _ _ _ _ _ _ _ _ Hnd Hin Hv HB1 Hget Hrange)
      as (v'' & Hun' & _).
    rewrite Hun' in Hun. done.
  - injection Hv as <-.
    destruct (rangeUpdate_kv_present _ _ _ _ _ _ _ _ Hrange HB1) as [HB2 _].
    pose proof (Hget (issued w2)).
    update_inv Hlog; try congruence.
    assert (B0 = B) as -> by congruence.
    match goal with H : Unmarshal B _ = _ |- _ => rewrite H in Hun end. done.
Qed.

(** C7 (amended). For an entry whose gets are answered and whose key
    has no record.  A put that fails: [update] logs the failure, returns no
    error and leaves the structure as it is, the range goes on with the
    entries that remain, and the entry ends the reconciliation with the
    structure it had.  A structure that does not serialize: [update] logs
    nothing, puts nothing and returns the error of [json.Marshal] as an
    argument error; the range stops there with that error; and, with the
    mode Enabled and a key that no other entry has, the reconciliation
    returns an error to its caller, the argument error unless it has
    aborted before the entry, and issues no put for the key. *)
Theorem put_failure_is_logged_not_fatal e :
  (∀ h, fault h (OpGet (BuildKey (entryName e))) = None) →
  (∀ perr,
      (∀ h val, fault h (OpPut (BuildKey (entryName e)) val) = Some perr) →
      (∀ v w data,
          kv w !! BuildKey (entryName e) = None → Marshal v = inr data →
          update (entryName e) v w
          = (None, v, afterPutError (BuildKey (entryName e)) data perr w))
      ∧ (∀ v w data rest m,
          kv w !! BuildKey (entryName e) = None → Marshal v = inr data →
          m !! entryName e = Some v →
          rangeUpdate (entryName e :: rest) m w
          = rangeUpdate rest m
              (afterPutError (BuildKey (entryName e)) data perr w))
      ∧ (∀ order r opts w res r' opts' w',
          kv w !! BuildKey (entryName e) = None →
          updateConfigFromEtcd order r opts w = (res, r', opts', w') →
          entryValue r' opts' e = entryValue r opts e))
  ∧ (∀ v w merr,
      kv w !! BuildKey (entryName e) = None → Marshal v = inl merr →
      update (entryName e) v w
      = (Some (ErrArgsWithDetail merr), v,
         issue (OpGet (BuildKey (entryName e))) w))
  ∧ (∀ v w merr rest m,
      kv w !! BuildKey (entryName e) = None → Marshal v = inl merr →
      m !! entryName e = Some v →
      rangeUpdate (entryName e :: rest) m w
      = (Some (ErrArgsWithDetail merr), m,
         issue (OpGet (BuildKey (entryName e))) w))
  ∧ (∀ order r opts w c v merr,
      etcdClient r = Some c →
      resolveMode w = Enabled →
      rangeOf (configMap opts) order →
      entryValue r opts e = Some v →
      kv w !! BuildKey (entryName e) = None →
      Marshal v = inl merr →
      (∀ e', e' ≠ e → is_Some (entryValue r opts e') →
             BuildKey (entryName e') ≠ BuildKey (entryName e)) →
      ∃ err r' opts' w',
        updateConfigFromEtcd order r opts w = (Some err, r', opts', w')
        ∧ (err = ErrArgsWithDetail merr ∨ abortsBefore order opts w e err)
        ∧ entryValue r' opts' e = Some v
        ∧ putsOf (BuildKey (entryName e)) (issued w')
          = putsOf (BuildKey (entryName e)) (issued w)).
Proof.
  intros Hget.
  assert (∀ v w merr,
      kv w !! BuildKey (entryName e) = None → Marshal v = inl merr →
      update (entryName e) v w
      = (Some (ErrArgsWithDetail merr), v,
         issue (OpGet (BuildKey (entryName e))) w)) as Hser.
  { intros v w merr Hk Hma. unfold update, Get.
    by rewrite Hget, Hk, Hma. }
  split; [|split; [done|split]].
  - intros perr Hput.
    assert (∀ v w data,
        kv w !! BuildKey (entryName e) = None → Marshal v = inr data →
        update (entryName e) v w
        = (None, v, afterPutError (BuildKey (entryName e)) data perr w))
      as Hone.
    { intros v w data Hk Hma. unfold update, Get, Put.
      rewrite Hget, Hk, Hma. simpl. by rewrite Hput. }
    split; [done|]. split.
    + intros v w data rest m Hk Hma Hm.
      rewrite rangeUpdate_cons, Hm, (Hone _ _ _ Hk Hma).
      by rewrite insert_id.
    + intros order r opts w res r' opts' w' Hk Hrun.
      by eapply reconcile_put_fails.
  - intros v w merr rest m Hk Hma Hm.
    rewrite rangeUpdate_cons, Hm, (Hser _ _ _ Hk Hma).
    by rewrite insert_id.
  - intros order r opts w c v merr Hc Hmode Horder Hv Hk Hma Hown.
    by eapply reconcile_marshal_fails.
Qed.

(** C8. For an entry whose gets fail: [update] logs the failure, returns
    no error and leaves the structure as it is; the range goes on with the
    entries that remain; and the entry ends the reconciliation with the
    structure it had. *)
Theorem get_failure_leaves_entry_untouched e gerr :
  (∀ h, fault h (OpGet (BuildKey (entryName e))) = Some gerr) →
  (∀ v w,
      update (entryName e) v w
      = (None, v, afterGetError (BuildKey (entryName e)) gerr w))
  ∧ (∀ v w rest m,
      m !! entryName e = Some v →
      rangeUpdate (entryName e :: rest) m w
      = rangeUpdate rest m (afterGetError (BuildKey (entryName e)) gerr w))
  ∧ (∀ order r opts w res r' opts' w',
      updateConfigFromEtcd order r opts w = (res, r', opts', w') →
      entryValue r' opts' e = entryValue r opts e).
Proof.
  intros Hget.
  assert (∀ v w,
      update (entryName e) v w
      = (None, v, afterGetError (BuildKey (entryName e)) gerr w)) as Hone.
  { intros v w. unfold update, Get. by rewrite Hget. }
  split; [done|]. split.
  - intros v w rest m Hm. rewrite rangeUpdate_cons, Hm, Hone.
    by rewrite insert_id.
  - intros order r opts w res r' opts' w' Hrun.
    by eapply reconcile_get_fails.
Qed.

(** *** The orchestration *)

Lemma initializeConfiguration_etcdClient order cmd o r res r' o' :
  initializeConfiguration order cmd o r = (res, r', o') →
  etcdClient r' = etcdClient r.
Proof.
  unfold initializeConfiguration, getFlag. intros Hrun.
  destruct (flagConf cmd); [by simplify_eq|].
  destruct (flagTransferIndex cmd); [by simplify_eq|].
  destruct (rangeLoad _ _ _ _) as [[err|] m]; [by simplify_eq|].
  destruct (Load _ _ _ _ _) as [v err]. by simplify_eq.
Qed.

(** [update] and the range open and close no connection. *)
Lemma update_conns name v w res v' w' :
  update name v w = (res, v', w') → conns w' = conns w.
Proof. intros Hrun. by update_inv Hrun. Qed.

Lemma rangeUpdate_conns order : ∀ m w res m' w',
  rangeUpdate order m w = (res, m', w') → conns w' = conns w.
Proof.
  induction order as [|n rest IH]; intros m w res m' w' Hrun.
  { by simplify_eq/=. }
  range_step Hrun v1 w1 Hlook Hup.
  - simplify_eq. by eapply update_conns.
  - erewrite IH by eauto. by eapply update_conns.
  - eauto.
Qed.

Lemma updateConfigFromEtcd_conns order r opts w res r' opts' w' :
  updateConfigFromEtcd order r opts w = (res, r', opts', w') →
  conns w' = conns w ∧ etcdClient r' = etcdClient r.
Proof.
  intros Hrun. reconcile_inv Hrun; try done.
  - split; [|done]. by erewrite rangeUpdate_conns by eauto.
  - split; [|done]. erewrite update_conns by eauto.
    by erewrite rangeUpdate_conns by eauto.
Qed.

(** When the reconciliation, or the logger, fails after [initEtcd] has
    opened a connection, [persistentPreRun] returns the error and the
    connection is still open. *)
Lemma persistentPreRun_error_keeps_connection
    loadOrder updateOrder r cmd opts w r1 w1 c r2 o2 :
  initEtcd r w = (Returns None, r1, w1) →
  etcdClient r1 = Some c → c ∈ conns w1 →
  initializeConfiguration loadOrder cmd (applyOptions opts) r1 = (None, r2, o2) →
  (is_Some (updateConfigFromEtcd updateOrder r2 o2 w1).1.1.1
   ∨ ∃ r3 o3 w3, updateConfigFromEtcd updateOrder r2 o2 w1 = (None, r3, o3, w3)
                 ∧ is_Some (initializeLogger o3 r3)) →
  ∃ err r' o' w',
    persistentPreRun loadOrder updateOrder r cmd opts w
    = (Returns (Some err), r', o', w')
    ∧ etcdClient r' = Some c ∧ c ∈ conns w'.
Proof.
  intros Hinit Hc Hopen Hconf Hfail. unfold persistentPreRun.
  rewrite Hinit, Hconf.
  pose proof (initializeConfiguration_etcdClient _ _ _ _ _ _ _ Hconf) as Hc2.
  destruct (updateConfigFromEtcd updateOrder r2 o2 w1)
    as [[[res r3] o3] w3] eqn:Hrun.
  destruct (updateConfigFromEtcd_conns _ _ _ _ _ _ _ _ Hrun) as [Hconns Hc3].
  destruct Hfail as [[err Herr]|(r3' & o3' & w3' & Heq & [err Hlog])].
  - simpl in Herr. subst res. do 4 eexists. split; [done|].
    split; congruence.
  - simplify_eq. rewrite Hlog. do 4 eexists. split; [done|].
    split; congruence.
Qed.

(** C10. When the discovery configuration does not select etcd, the
    client of the command stays nil; the reconciliation returns at once,
    without a request; and [persistentPreRun] cannot return without
    error: when the steps before it succeed, the call of [Close] on the
    nil client panics. *)
Theorem nil_client_bootstrap_cannot_complete
    loadOrder updateOrder r cmd opts w dir i disConfig :
  etcdClient r = None →
  flagConf (command r) = inr dir →
  flagTransferIndex (command r) = inr i →
  Load dir DiscoveryConfigFileName (EnvPrefixMap DiscoveryConfigFileName)
       PrintRuntimeEnvironment zeroDiscovery = (disConfig, None) →
  DiscoveryEnable disConfig ≠ ETCDCONST →
  initEtcd r w = (Returns None, set_index i r, w)
  ∧ etcdClient (set_index i r) = None
  ∧ (∀ order r2 o2 w2,
        etcdClient r2 = None →
        updateConfigFromEtcd order r2 o2 w2 = (None, r2, o2, w2))
  ∧ (persistentPreRun loadOrder updateOrder r cmd opts w).1.1.1 ≠ Returns None
  ∧ (∀ r2 o2,
        initializeConfiguration loadOrder cmd (applyOptions opts) (set_index i r)
        = (None, r2, o2) →
        initializeLogger o2 r2 = None →
        persistentPreRun loadOrder updateOrder r cmd opts w
        = (Panics "invalid memory address or nil pointer dereference",
           r2, o2, w)).
Proof.
  intros Hnil Hconf Hidx Hload Hsel.
  assert (initEtcd r w = (Returns None, set_index i r, w)) as Hinit.
  { unfold initEtcd, getFlag. rewrite Hconf, Hidx, Hload.
    by rewrite decide_False. }
  assert (∀ order r2 o2 w2,
        etcdClient r2 = None →
        updateConfigFromEtcd order r2 o2 w2 = (None, r2, o2, w2)) as Hshort.
  { intros order r2 o2 w2 Hc. unfold updateConfigFromEtcd. by rewrite Hc. }
  split; [done|]. split; [done|]. split; [done|].
  unfold persistentPreRun. rewrite Hinit.
  destruct (initializeConfiguration loadOrder cmd (applyOptions opts)
              (set_index i r)) as [[[err|] r2] o2] eqn:Hcfg.
  { split; [done|]. intros ? ? [=]. }
  pose proof (initializeConfiguration_etcdClient _ _ _ _ _ _ _ Hcfg) as Hc2.
  simpl in Hc2. rewrite Hnil in Hc2.
  rewrite (Hshort _ _ _ _ Hc2).
  destruct (initializeLogger o2 r2) as [err|] eqn:Hlog.
  { split; [done|]. intros ? ? [= <- <-]. congruence. }
  rewrite Hc2. simpl. split; [done|]. by intros ? ? [= <- <-] _.
Qed.

(** ** More properties of the code *)

(** *** One entry, further *)

(** The requests of [update]: the get of the key and, at most, one put of
    the serialized structure. *)
Lemma update_issued name v w res v' w' :
  update name v w = (res, v', w') →
  ∃ ops, issued w' = issued w ++ ops
         ∧ (length ops ≤ 2)%nat
         ∧ Forall (λ op, op = OpGet (BuildKey name)
                         ∨ ∃ data, op = OpPut (BuildKey name) data
                                   ∧ Marshal v = inr data) ops.
Proof.
  intros Hrun.
  update_inv Hrun; simpl;
    first [ exists [OpGet (BuildKey name)];
            split; [done|]; split; [simpl; lia|]; by repeat constructor
          | exists [OpGet (BuildKey name); OpPut (BuildKey name) data];
            split; [by rewrite <- app_assoc|]; split; [simpl; lia|];
            constructor; [by left|]; constructor; [right; eauto|];
            constructor ].
Qed.

Lemma faultsOf_app ops1 : ∀ before ops2,
  faultsOf before (ops1 ++ ops2)
  = faultsOf before ops1 ++ faultsOf (before ++ ops1) ops2.
Proof.
  induction ops1 as [|op ops1 IH]; intros before ops2; simpl.
  { by rewrite app_nil_r. }
  rewrite IH, <- app_assoc. simpl. by destruct (fault before op).
Qed.

Lemma faultsOf_reliable ops : ∀ before,
  (∀ h op, fault h op = None) → faultsOf before ops = [].
Proof.
  induction ops as [|op ops IH]; intros before Hok; simpl; [done|].
  rewrite Hok. by apply IH.
Qed.

Lemma logsFaults_refl w : logsFaults w w.
Proof. exists [], []. by rewrite !app_nil_r. Qed.

Lemma logsFaults_trans w1 w2 w3 :
  logsFaults w1 w2 → logsFaults w2 w3 → logsFaults w1 w3.
Proof.
  intros (ops & ws & Hops & Hws & Hall) (ops' & ws' & Hops' & Hws' & Hall').
  exists (ops ++ ops'), (ws ++ ws').
  rewrite Hops', Hws', Hops, Hws, !app_assoc. split; [done|]. split; [done|].
  rewrite fmap_app, faultsOf_app, fmap_app, Hall, Hall'. by rewrite Hops.
Qed.

(** [update] logs the error of its get, or that of its put. *)
Lemma update_warned name v w res v' w' :
  update name v w = (res, v', w') → logsFaults w w'.
Proof.
  intros Hrun. unfold logsFaults.
  update_inv Hrun; simpl.
  - eexists [_], [_]. simpl. split; [done|]. split; [done|].
    by match goal with H : fault _ _ = Some _ |- _ => rewrite H end.
  - eexists [_], []. simpl. rewrite app_nil_r. split; [done|]. split; [done|].
    by match goal with H : fault _ _ = None |- _ => rewrite H end.
  - eexists [_; _], [_]. simpl. rewrite <- app_assoc.
    split; [done|]. split; [done|].
    repeat match goal with H : fault _ _ = _ |- _ => rewrite H; clear H end.
    done.
  - eexists [_; _], []. simpl. rewrite <- app_assoc, app_nil_r.
    split; [done|]. split; [done|].
    repeat match goal with H : fault _ _ = _ |- _ => rewrite H; clear H end.
    done.
  - eexists [_], []. simpl. rewrite app_nil_r. split; [done|]. split; [done|].
    by match goal with H : fault _ _ = None |- _ => rewrite H end.
  - eexists [_], []. simpl. rewrite app_nil_r. split; [done|]. split; [done|].
    by match goal with H : fault _ _ = None |- _ => rewrite H end.
Qed.

(** A record that [update] adds is the serialized structure, under the key
    of the entry. *)
Lemma update_kv_new name v w res v' w' k data :
  update name v w = (res, v', w') →
  kv w !! k = None → kv w' !! k = Some data →
  k = BuildKey name ∧ Marshal v = inr data.
Proof.
  intros Hrun Hk Hk'. update_inv Hrun; simpl in *; try congruence.
  destruct (decide (BuildKey name = k)) as [<-|Hne].
  - rewrite lookup_insert_eq in Hk'. split; congruence.
  - rewrite lookup_insert_ne in Hk' by done. congruence.
Qed.

(** The errors of [update] are those of [json.Marshal] and
    [json.Unmarshal]. *)
Lemma update_error name v w err v' w' :
  update name v w = (Some err, v', w') →
  (∃ e, Marshal v = inl e ∧ err = ErrArgsWithDetail e)
  ∨ (∃ B e, kv w !! BuildKey name = Some B
            ∧ Unmarshal B v = (v', Some e)
            ∧ err = ErrsWrapMsg e "failed to unmarshal config from etcd").
Proof. intros Hrun. update_inv Hrun; eauto 6. Qed.

(** On a store that answers, the key of an entry has a record once
    [update] has returned without error. *)
Lemma update_stored name v w v' w' :
  (∀ h op, fault h op = None) →
  update name v w = (None, v', w') →
  is_Some (kv w' !! BuildKey name).
Proof.
  intros Hok Hrun.
  pose proof (Hok (issued w) (OpGet (BuildKey name))).
  update_inv Hrun; simpl; try congruence.
  - rewrite lookup_insert_eq. eauto.
  - eauto.
Qed.

(** *** The range, further *)

Lemma rangeUpdate_dom order : ∀ m w res m' w',
  rangeUpdate order m w = (res, m', w') → dom m' = dom m.
Proof.
  induction order as [|n rest IH]; intros m w res m' w' Hrun.
  { by simplify_eq/=. }
  range_step Hrun v1 w1 Hlook Hup.
  - simplify_eq. apply dom_insert_lookup_L. eauto.
  - erewrite IH by eauto. apply dom_insert_lookup_L. eauto.
  - eauto.
Qed.

Lemma rangeUpdate_issued order : ∀ m w res m' w',
  rangeUpdate order m w = (res, m', w') →
  ∃ ops, issued w' = issued w ++ ops
         ∧ (length ops ≤ 2 * length order)%nat
         ∧ Forall (λ op, ∃ name, is_Some (m !! name)
                     ∧ (op = OpGet (BuildKey name)
                        ∨ ∃ data, op = OpPut (BuildKey name) data)) ops.
Proof.
  induction order as [|n rest IH]; intros m w res m' w' Hrun.
  { simplify_eq/=. exists []. by rewrite app_nil_r. }
  assert (∀ v0 res1 v1 w1, m !! n = Some v0 →
            update n v0 w = (res1, v1, w1) →
            ∃ ops, issued w1 = issued w ++ ops ∧ (length ops ≤ 2)%nat
                   ∧ Forall (λ op, ∃ name, is_Some (m !! name)
                               ∧ (op = OpGet (BuildKey name)
                                  ∨ ∃ data, op = OpPut (BuildKey name) data))
                            ops) as Hhead.
  { intros v0 res1 v1 w1 Hlook Hup.
    destruct (update_issued _ _ _ _ _ _ Hup) as (ops & Hops & Hlen & Hall).
    exists ops. repeat split; try done.
    eapply Forall_impl; [exact Hall|]. simpl.
    intros op [->|(data & -> & _)]; exists n; eauto. }
  range_step Hrun v1 w1 Hlook Hup.
  - simplify_eq.
    destruct (Hhead _ _ _ _ eq_refl Hup) as (ops & Hops & Hlen & Hall).
    exists ops. repeat split; [done|simpl; lia|done].
  - destruct (Hhead _ _ _ _ eq_refl Hup) as (ops & Hops & Hlen & Hall).
    destruct (IH _ _ _ _ _ Hrun) as (ops' & Hops' & Hlen' & Hall').
    exists (ops ++ ops'). split; [by rewrite Hops', Hops, app_assoc|].
    split; [rewrite length_app; simpl; lia|].
    apply Forall_app. split; [done|].
    eapply Forall_impl; [exact Hall'|]. simpl.
    intros op (name & Hname & Hop). exists name. split; [|done].
    destruct (decide (n = name)) as [<-|Hne]; [eauto|].
    by rewrite lookup_insert_ne in Hname.
  - destruct (IH _ _ _ _ _ Hrun) as (ops' & Hops' & Hlen' & Hall').
    exists ops'. repeat split; [done|simpl; lia|done].
Qed.

Lemma rangeUpdate_warned order : ∀ m w res m' w',
  rangeUpdate order m w = (res, m', w') → logsFaults w w'.
Proof.
  induction order as [|n rest IH]; intros m w res m' w' Hrun.
  { simplify_eq/=. apply logsFaults_refl. }
  range_step Hrun v1 w1 Hlook Hup.
  - simplify_eq. by eapply update_warned.
  - eapply logsFaults_trans; [by eapply update_warned|by eapply IH].
  - eauto.
Qed.

(** A record the range adds is the serialization of the structure an entry
    had when the range began. *)
Lemma rangeUpdate_kv_new order : ∀ m w res m' w' k data,
  NoDup order →
  rangeUpdate order m w = (res, m', w') →
  kv w !! k = None → kv w' !! k = Some data →
  ∃ name v, name ∈ order ∧ m !! name = Some v
            ∧ k = BuildKey name ∧ Marshal v = inr data.
Proof.
  induction order as [|n rest IH]; intros m w res m' w' k data Hnd Hrun Hk Hk'.
  { by simplify_eq/=. }
  apply NoDup_cons in Hnd as [Hnot Hnd].
  range_step Hrun v1 w1 Hlook Hup.
  - simplify_eq.
    destruct (update_kv_new _ _ _ _ _ _ _ _ Hup Hk Hk') as [-> Hma].
    exists n, v0. split; [left|done].
  - destruct (kv w1 !! k) as [d1|] eqn:Hk1.
    + destruct (rangeUpdate_kv_present _ _ _ _ _ _ _ _ Hrun Hk1) as [Hk2 _].
      assert (d1 = data) as -> by congruence.
      destruct (update_kv_new _ _ _ _ _ _ _ _ Hup Hk Hk1) as [-> Hma].
      exists n, v0. split; [left|done].
    + destruct (IH _ _ _ _ _ _ _ Hnd Hrun Hk1 Hk')
        as (name & v & Hin & Hv & -> & Hma).
      exists name, v. split; [by right|]. split; [|done].
      rewrite lookup_insert_ne in Hv; [done|]. by intros ->.
  - destruct (IH _ _ _ _ _ _ _ Hnd Hrun Hk Hk')
      as (name & v & Hin & Hv & -> & Hma).
    exists name, v. split; [by right|done].
Qed.

(** The errors of the range are those of [json.Marshal] and
    [json.Unmarshal]. *)
Lemma rangeUpdate_error order : ∀ m w err m' w',
  rangeUpdate order m w = (Some err, m', w') →
  (∃ v e, Marshal v = inl e ∧ err = ErrArgsWithDetail e)
  ∨ (∃ B v e, (Unmarshal B v).2 = Some e
              ∧ err = ErrsWrapMsg e "failed to unmarshal config from etcd").
Proof.
  induction order as [|n rest IH]; intros m w err m' w' Hrun.
  { by simplify_eq/=. }
  range_step Hrun v1 w1 Hlook Hup; [|by eauto|by eauto].
  simplify_eq.
  destruct (update_error _ _ _ _ _ _ Hup)
    as [(e & Hma & ->)|(B & e & _ & Hun & ->)]; [left; eauto|].
  right. exists B, v0, e. by rewrite Hun.
Qed.

(** On a store that answers, every entry of a range that succeeds has a
    record under its key. *)
Lemma rangeUpdate_all_stored order : ∀ m w m' w' name,
  (∀ h op, fault h op = None) →
  rangeUpdate order m w = (None, m', w') →
  name ∈ order → is_Some (m !! name) →
  is_Some (kv w' !! BuildKey name).
Proof.
  induction order as [|n rest IH]; intros m w m' w' name Hok Hrun Hin Hname.
  { inversion Hin. }
  range_step Hrun v1 w1 Hlook Hup; [done| |].
  - destruct (decide (n = name)) as [->|Hne].
    + destruct (update_stored _ _ _ _ _ Hok Hup) as [B HB].
      destruct (rangeUpdate_kv_present _ _ _ _ _ _ _ _ Hrun HB) as [HB' _].
      eauto.
    + apply elem_of_cons in Hin as [?|Hin]; [congruence|].
      eapply IH; eauto. by rewrite lookup_insert_ne.
  - apply elem_of_cons in Hin as [->|Hin].
    + rewrite Hlook in Hname. by destruct Hname.
    + eauto.
Qed.

(** When every entry has a record under its key, the range puts nothing. *)
Lemma rangeUpdate_no_puts order : ∀ m w res m' w' k,
  (∀ name, name ∈ order → is_Some (m !! name) →
           is_Some (kv w !! BuildKey name)) →
  rangeUpdate order m w = (res, m', w') →
  putsOf k (issued w') = putsOf k (issued w).
Proof.
  induction order as [|n rest IH]; intros m w res m' w' k Hall Hrun.
  { by simplify_eq/=. }
  assert (∀ v0 res1 v1 w1, m !! n = Some v0 →
            update n v0 w = (res1, v1, w1) →
            putsOf k (issued w1) = putsOf k (issued w)) as Hhead.
  { intros v0 res1 v1 w1 Hlook Hup.
    destruct (decide (BuildKey n = k)) as [<-|Hne].
    - destruct (Hall n) as [B HB]; [left|eauto|].
      by eapply update_puts_present.
    - by eapply update_other_key. }
  range_step Hrun v1 w1 Hlook Hup.
  - simplify_eq. eauto.
  - rewrite <- (Hhead _ _ _ _ eq_refl Hup).
    eapply IH; [|exact Hrun].
    intros name Hin Hname.
    destruct (Hall name) as [B HB]; [by right| |].
    + destruct (decide (n = name)) as [<-|Hne]; [eauto|].
      by rewrite lookup_insert_ne in Hname.
    + exists B. by eapply update_kv_present.
  - eapply IH; [|exact Hrun]. intros name Hin Hname.
    apply Hall; [by right|done].
Qed.

(** In a range that succeeds on a store that answers the requests of the
    key, an entry whose key has no record, and is the key of no other
    entry, leaves its serialized structure under its key. *)
Lemma rangeUpdate_seed_stored order : ∀ m w m' w' name v,
  NoDup order → name ∈ order → m !! name = Some v →
  kv w !! BuildKey name = None →
  (∀ h, fault h (OpGet (BuildKey name)) = None) →
  (∀ h val, fault h (OpPut (BuildKey name) val) = None) →
  (∀ n, n ∈ order → n ≠ name → BuildKey n ≠ BuildKey name) →
  rangeUpdate order m w = (None, m', w') →
  ∃ data, Marshal v = inr data ∧ kv w' !! BuildKey name = Some data.
Proof.
  induction order as [|n rest IH];
    intros m w m' w' name v Hnd Hin Hv Hk Hget Hput Hkeys Hrun.
  { inversion Hin. }
  apply NoDup_cons in Hnd as [Hnot Hnd].
  range_step Hrun v1 w1 Hlook Hup; [done| |].
  - destruct (decide (n = name)) as [->|Hne].
    + simplify_eq. pose proof (Hget (issued w)).
      update_inv Hup; try congruence.
      exists data. split; [done|].
      eapply rangeUpdate_kv_present; [exact Hrun|].
      simpl. apply lookup_insert_eq.
    + apply elem_of_cons in Hin as [?|Hin]; [congruence|].
      assert (BuildKey n ≠ BuildKey name) as Hkn by (apply Hkeys; [left|]; done).
      destruct (update_other_key _ _ _ _ _ _ _ Hup Hkn) as [Hkv _].
      apply (IH (<[n:=v1]> m) w1 m' w' name v);
        [done|done|by rewrite lookup_insert_ne|congruence|done|done| |done].
      intros n' Hn'. apply Hkeys. by right.
  - apply elem_of_cons in Hin as [->|Hin]; [congruence|].
    apply (IH m w m' w' name v); try done.
    intros n' Hn'. apply Hkeys. by right.
Qed.

(** *** The whole reconciliation, further *)

Lemma reconcile_kv_present order r opts w res r' opts' w' k B :
  updateConfigFromEtcd order r opts w = (res, r', opts', w') →
  kv w !! k = Some B → kv w' !! k = Some B.
Proof.
  intros Hrun Hk.
  assert (kv (issue (OpGet (BuildKey EnableConfigCenterKey)) w) !! k = Some B)
    as Hk1 by done.
  reconcile_inv Hrun; try done.
  - congruence.
  - by eapply rangeUpdate_kv_present.
  - eapply update_kv_present; [eauto|].
    by eapply rangeUpdate_kv_present.
Qed.

Lemma reconcile_kv_new order r opts w res r' opts' w' k data :
  rangeOf (configMap opts) order →
  updateConfigFromEtcd order r opts w = (res, r', opts', w') →
  kv w !! k = None → kv w' !! k = Some data →
  ∃ e v, entryValue r opts e = Some v
         ∧ k = BuildKey (entryName e) ∧ Marshal v = inr data.
Proof.
  intros Horder Hrun Hk Hk'. apply rangeOf_NoDup in Horder.
  assert (kv (issue (OpGet (BuildKey EnableConfigCenterKey)) w) !! k = None)
    as Hk1 by done.
  reconcile_inv Hrun; try congruence.
  - match goal with H : rangeUpdate _ _ _ = _ |- _ =>
      destruct (rangeUpdate_kv_new _ _ _ _ _ _ _ _ Horder H Hk1 Hk')
        as (name & v & _ & Hv & -> & Hma)
    end.
    by exists (ConfigEntry name), v.
  - match goal with H : rangeUpdate _ _ _ = _ |- _ => rename H into Hrange end.
    match goal with H : update _ _ _ = _ |- _ => rename H into Hlog end.
    destruct (kv w2 !! k) as [d|] eqn:Hk2.
    + assert (d = data) as ->.
      { pose proof (update_kv_present _ _ _ _ _ _ _ _ Hlog Hk2). congruence. }
      destruct (rangeUpdate_kv_new _ _ _ _ _ _ _ _ Horder Hrange Hk1 Hk2)
        as (name & vn & _ & Hv & -> & Hma).
      by exists (ConfigEntry name), vn.
    + destruct (update_kv_new _ _ _ _ _ _ _ _ Hlog Hk2 Hk') as [-> Hma].
      by exists LogEntry, (log r).
Qed.

(** The structure an entry ends a successful reconciliation with, in the
    mode Enabled, when the gets of its key are answered and no other entry
    has its key: the decoding of the record of its key, or, without a
    record, the structure it had. *)
Lemma reconcile_enabled_value order r opts w r' opts' w' c e v :
  etcdClient r = Some c →
  resolveMode w = Enabled →
  rangeOf (configMap opts) order →
  entryValue r opts e = Some v →
  (∀ h, fault h (OpGet (BuildKey (entryName e))) = None) →
  (∀ e', e' ≠ e → is_Some (entryValue r opts e') →
         BuildKey (entryName e') ≠ BuildKey (entryName e)) →
  updateConfigFromEtcd order r opts w = (None, r', opts', w') →
  entryValue r' opts' e
  = Some (match kv w !! BuildKey (entryName e) with
          | Some B => (Unmarshal B v).1
          | None => v
          end).
Proof.
  intros Hc Hmode Horder Hv Hget Hkeys Hrun.
  pose proof (rangeOf_NoDup _ _ Horder) as Hnd.
  reconcile_inv Hrun; try congruence.
  match goal with H : rangeUpdate _ _ _ = _ |- _ => rename H into Hrange end.
  match goal with H : update _ _ _ = _ |- _ => rename H into Hlog end.
  remember (issue (OpGet (BuildKey EnableConfigCenterKey)) w) as w1 eqn:Hw1.
  assert (kv w1 !! BuildKey (entryName e) = kv w !! BuildKey (entryName e))
    as Hkv1 by (by subst w1).
  destruct e as [name|]; simpl in *.
  - assert (name ∈ order) as Hin by (eapply rangeOf_elem_of; eauto).
    destruct (kv w !! BuildKey name) as [B|] eqn:HB.
    + destruct (rangeUpdate_found _ _ _ _ _ _ _ _ Hnd Hin Hv Hkv1 Hget Hrange)
        as (v' & Hun & Hv').
      by rewrite Hun.
    + assert (∀ n, n ∈ order → n ≠ name → BuildKey n ≠ BuildKey name)
        as Hothers.
      { intros n Hn Hne. apply (Hkeys (ConfigEntry n)); [congruence|].
        simpl. by eapply rangeOf_elem_of. }
      by destruct (rangeUpdate_seed _ _ _ _ _ _ _ Hnd Hin Hv Hkv1 Hget
                     Hothers Hrange) as (data & _ & _ & Hv').
  - injection Hv as <-. pose proof (Hget (issued w2)).
    destruct (kv w !! BuildKey LogConfigFileName) as [B|] eqn:HB.
    + destruct (rangeUpdate_kv_present _ _ _ _ _ _ _ _ Hrange Hkv1) as [HB2 _].
      update_inv Hlog; try congruence.
      assert (B0 = B) as -> by congruence.
      match goal with H : Unmarshal B _ = _ |- _ => by rewrite H end.
    + assert (∀ n, n ∈ order → BuildKey n ≠ BuildKey LogConfigFileName)
        as Hothers.
      { intros n Hn. apply (Hkeys (ConfigEntry n)); [done|].
        simpl. by eapply rangeOf_elem_of. }
      destruct (rangeUpdate_other_keys _ _ _ _ _ _ _ Hothers Hrange)
        as [Hk2 _].
      rewrite Hkv1 in Hk2.
      update_inv Hlog; congruence.
Qed.

(** The record an entry without one leaves in the store, in a successful
    reconciliation in the mode Enabled, when the requests of its key are
    answered and no other entry has its key. *)
Lemma reconcile_seed_stored order r opts w r' opts' w' c e v :
  etcdClient r = Some c →
  resolveMode w = Enabled →
  rangeOf (configMap opts) order →
  entryValue r opts e = Some v →
  kv w !! BuildKey (entryName e) = None →
  (∀ h, fault h (OpGet (BuildKey (entryName e))) = None) →
  (∀ h val, fault h (OpPut (BuildKey (entryName e)) val) = None) →
  (∀ e', e' ≠ e → is_Some (entryValue r opts e') →
         BuildKey (entryName e') ≠ BuildKey (entryName e)) →
  updateConfigFromEtcd order r opts w = (None, r', opts', w') →
  ∃ data, Marshal v = inr data
          ∧ kv w' !! BuildKey (entryName e) = Some data.
Proof.
  intros Hc Hmode Horder Hv Hk Hget Hput Hkeys Hrun.
  pose proof (rangeOf_NoDup _ _ Horder) as Hnd.
  reconcile_inv Hrun; try congruence.
  match goal with H : rangeUpdate _ _ _ = _ |- _ => rename H into Hrange end.
  match goal with H : update _ _ _ = _ |- _ => rename H into Hlog end.
  remember (issue (OpGet (BuildKey EnableConfigCenterKey)) w) as w1 eqn:Hw1.
  assert (kv w1 !! BuildKey (entryName e) = None) as Hk1 by (by subst w1).
  destruct e as [name|]; simpl in *.
  - assert (name ∈ order) as Hin by (eapply rangeOf_elem_of; eauto).
    assert (∀ n, n ∈ order → n ≠ name → BuildKey n ≠ BuildKey name) as Hothers.
    { intros n Hn Hne. apply (Hkeys (ConfigEntry n)); [congruence|].
      simpl. by eapply rangeOf_elem_of. }
    destruct (rangeUpdate_seed_stored _ _ _ _ _ _ _ Hnd Hin Hv Hk1 Hget Hput
                Hothers Hrange) as (data & Hma & Hdata).
    exists data. split; [done|]. by eapply update_kv_present.
  - injection Hv as <-.
    assert (∀ n, n ∈ order → BuildKey n ≠ BuildKey LogConfigFileName) as Hothers.
    { intros n Hn. apply (Hkeys (ConfigEntry n)); [done|].
      simpl. by eapply rangeOf_elem_of. }
    destruct (rangeUpdate_other_keys _ _ _ _ _ _ _ Hothers Hrange) as [Hk2 _].
    rewrite Hk1 in Hk2. pose proof (Hget (issued w2)).
    update_inv Hlog; try congruence.
    exists data. split; [done|]. simpl. apply lookup_insert_eq.
Qed.

(** What a reconciliation leaves of the command and of the options: the
    log configuration and the structures may change, nothing else. *)
Lemma reconcile_frame order r opts w res r' opts' w' :
  updateConfigFromEtcd order r opts w = (res, r', opts', w') →
  r' = set_log (log r') r
  ∧ loggerPrefixName opts' = loggerPrefixName opts
  ∧ dom (configMap opts') = dom (configMap opts).
Proof.
  intros Hrun. reconcile_inv Hrun; try by destruct r'.
  - split; [by destruct r'|]. split; [done|]. simpl.
    by eapply rangeUpdate_dom.
  - split; [done|]. split; [done|]. simpl. by eapply rangeUpdate_dom.
Qed.

(** On a store that answers, the mode depends on the record of the
    control key alone. *)
Lemma resolveMode_reliable w1 w2 :
  (∀ h op, fault h op = None) →
  kv w1 !! BuildKey EnableConfigCenterKey
  = kv w2 !! BuildKey EnableConfigCenterKey →
  resolveMode w1 = resolveMode w2.
Proof. intros Hok Hkv. unfold resolveMode. by rewrite !Hok, Hkv. Qed.


(** X2. The requests of a reconciliation are appended to those issued
    before; each is the get of the control key, or the get or a put of the
    key of an entry; none closes the client; and there are at most three
    more than twice the length of the range. *)
Theorem reconciliation_requests_stay_on_entry_keys
    order r opts w res r' opts' w' :
  updateConfigFromEtcd order r opts w = (res, r', opts', w') →
  ∃ ops, issued w' = issued w ++ ops
         ∧ (length ops ≤ 2 * length order + 3)%nat
         ∧ Forall (entryRequest r opts) ops
         ∧ ∀ c, OpClose c ∉ ops.
Proof.
  intros Hrun.
  assert (∃ ops, issued w' = issued w ++ ops
                 ∧ (length ops ≤ 2 * length order + 3)%nat
                 ∧ Forall (entryRequest r opts) ops) as (ops & Hops & Hlen & Hall).
  { assert (∀ ops m, Forall (λ op, ∃ name, is_Some (m !! name)
                     ∧ (op = OpGet (BuildKey name)
                        ∨ ∃ data, op = OpPut (BuildKey name) data)) ops →
              m = configMap opts → Forall (entryRequest r opts) ops) as Hnames.
    { intros ops m Hall ->. eapply Forall_impl; [exact Hall|]. simpl.
      intros op (name & Hname & Hop). right. by exists (ConfigEntry name). }
    reconcile_inv Hrun.
    - exists []. rewrite app_nil_r. repeat split; [simpl; lia|constructor].
    - exists [OpGet (BuildKey EnableConfigCenterKey)].
      repeat split; [done|simpl; lia|]. constructor; [by left|constructor].
    - exists [OpGet (BuildKey EnableConfigCenterKey)].
      repeat split; [simpl; lia|]. constructor; [by left|constructor].
    - match goal with H : rangeUpdate _ _ _ = _ |- _ =>
        destruct (rangeUpdate_issued _ _ _ _ _ _ H) as (ops & Hops & Hlen & Hall)
      end.
      exists (OpGet (BuildKey EnableConfigCenterKey) :: ops).
      split; [rewrite Hops; simpl; by rewrite <- app_assoc|].
      split; [simpl; lia|]. constructor; [by left|by eapply Hnames].
    - match goal with H : rangeUpdate _ _ _ = _ |- _ =>
        destruct (rangeUpdate_issued _ _ _ _ _ _ H) as (ops & Hops & Hlen & Hall)
      end.
      match goal with H : update _ _ _ = _ |- _ =>
        destruct (update_issued _ _ _ _ _ _ H) as (ops' & Hops' & Hlen' & Hall')
      end.
      exists (OpGet (BuildKey EnableConfigCenterKey) :: ops ++ ops').
      split; [rewrite Hops', Hops; simpl; by rewrite <- !app_assoc|].
      split; [simpl; rewrite length_app; lia|].
      constructor; [by left|]. apply Forall_app. split; [by eapply Hnames|].
      eapply Forall_impl; [exact Hall'|]. simpl.
      intros op Hop. right. exists LogEntry. split; [by eexists|].
      destruct Hop as [->|(data & -> & _)]; eauto. }
  exists ops. repeat split; try done.
  intros c Hin. rewrite Forall_forall in Hall.
  destruct (Hall _ Hin) as [?|(e & _ & [?|[data ?]])]; done.
Qed.

(** X3. The warnings of a reconciliation are appended to the log, and
    they are, in order, the wrapped errors the etcd client has returned to
    the requests of this reconciliation: every request that has failed is
    logged once, and nothing else is.  On a store that answers every
    request, nothing is logged. *)
Theorem reconciliation_warnings_wrap_client_errors
    order r opts w res r' opts' w' :
  updateConfigFromEtcd order r opts w = (res, r', opts', w') →
  (∃ ops ws, issued w' = issued w ++ ops
             ∧ warned w' = warned w ++ ws
             ∧ ws.*2 = ErrsWrap <$> faultsOf (issued w) ops)
  ∧ ((∀ h op, fault h op = None) → warned w' = warned w).
Proof.
  intros Hrun.
  assert (logsFaults w w') as (ops & ws & Hops & Hws & Hall).
  { revert Hrun. unfold updateConfigFromEtcd, Get. intros Hrun.
    destruct (etcdClient r); [|simplify_eq; apply logsFaults_refl].
    destruct (fault (issued w) (OpGet (BuildKey EnableConfigCenterKey)))
      as [gerr|] eqn:Hget.
    { simplify_eq. eexists [_], [_]. simpl. by rewrite Hget. }
    assert (logsFaults w (issue (OpGet (BuildKey EnableConfigCenterKey)) w))
      as Hstep.
    { eexists [_], []. simpl. by rewrite Hget, app_nil_r. }
    destruct (kv w !! BuildKey EnableConfigCenterKey);
      simpl in Hrun; [|by simplify_eq].
    repeat case_decide; [by simplify_eq|by simplify_eq|].
    destruct (rangeUpdate _ _ _) as [[[rerr|] m] w2] eqn:Hrange.
    { simplify_eq. eapply logsFaults_trans; [done|].
      by eapply rangeUpdate_warned. }
    apply rangeUpdate_warned in Hrange.
    destruct (update _ _ _) as [[[lerr|] v] w3] eqn:Hlog;
      apply update_warned in Hlog; simplify_eq;
      eauto using logsFaults_trans. }
  split; [by exists ops, ws|]. intros Hok.
  rewrite faultsOf_reliable in Hall by done.
  apply fmap_nil_inv in Hall as ->. by rewrite Hws, app_nil_r.
Qed.

(** X4. An error of a reconciliation is the error of the unknown mode, in
    the mode Unknown, or, in the mode Enabled, an error of [json.Marshal]
    as an argument error or an error of [json.Unmarshal] under its
    message: never an error of the etcd client. *)
Theorem reconciliation_errors_are_of_mode_or_json
    order r opts w err r' opts' w' :
  updateConfigFromEtcd order r opts w = (Some err, r', opts', w') →
  (resolveMode w = Unknown
   ∧ err = ErrsNew "unknown EnableConfigCenter value")
  ∨ (resolveMode w = Enabled
     ∧ ((∃ v e, Marshal v = inl e ∧ err = ErrArgsWithDetail e)
        ∨ (∃ B v e, (Unmarshal B v).2 = Some e
                    ∧ err = ErrsWrapMsg e "failed to unmarshal config from etcd"))).
Proof.
  intros Hrun. reconcile_inv Hrun.
  - by left.
  - right. split; [done|]. by eapply rangeUpdate_error.
  - right. split; [done|].
    match goal with H : update _ _ _ = _ |- _ =>
      destruct (update_error _ _ _ _ _ _ H)
        as [(e & Hma & ->)|(B & e & _ & Hun & ->)]
    end; [left; eauto|].
    right. exists B, (log r), e. by rewrite Hun.
Qed.

(** X5. A reconciliation changes nothing of the command but its log
    configuration and nothing of the options but the structures of the
    map, whose names stay the same; it opens and closes no connection. *)
Theorem reconciliation_changes_only_structures
    order r opts w res r' opts' w' :
  updateConfigFromEtcd order r opts w = (res, r', opts', w') →
  r' = set_log (log r') r
  ∧ loggerPrefixName opts' = loggerPrefixName opts
  ∧ dom (configMap opts') = dom (configMap opts)
  ∧ conns w' = conns w.
Proof.
  intros Hrun.
  destruct (reconcile_frame _ _ _ _ _ _ _ _ Hrun) as (Hr & Hp & Hd).
  destruct (updateConfigFromEtcd_conns _ _ _ _ _ _ _ _ Hrun) as [Hc _].
  done.
Qed.


(** X7. On a store that answers every request, a reconciliation that
    follows one that has returned no error issues no put, whatever the
    order of its range: every entry has a record by then. *)
Theorem second_reconciliation_puts_nothing
    order order2 r opts w r' opts' w' res2 r2 opts2 w2 k :
  (∀ h op, fault h op = None) →
  rangeOf (configMap opts) order →
  updateConfigFromEtcd order r opts w = (None, r', opts', w') →
  updateConfigFromEtcd order2 r' opts' w' = (res2, r2, opts2, w2) →
  putsOf k (issued w2) = putsOf k (issued w').
Proof.
  intros Hok Horder Hrun1 Hrun2.
  reconcile_inv Hrun1.
  - (* no client *)
    reconcile_inv Hrun2; congruence.
  - (* disabled: the store is as it was *)
    assert (resolveMode w' = Disabled) as Hmode'.
    { erewrite resolveMode_reliable; [eassumption|done|congruence]. }
    reconcile_inv Hrun2; try congruence.
    match goal with H : issued w2 = _ |- _ => rewrite H end.
    rewrite putsOf_app. simpl. by rewrite app_nil_r.
  - (* enabled: every entry has a record *)
    match goal with H : rangeUpdate _ _ _ = _ |- _ => rename H into Hrange end.
    match goal with H : update _ _ _ = _ |- _ => rename H into Hlog end.
    assert (∀ name, is_Some (m !! name) →
              is_Some (kv (issue (OpGet (BuildKey EnableConfigCenterKey)) w')
                         !! BuildKey name)) as Hstored.
    { intros name Hname.
      assert (is_Some (configMap opts !! name)) as Hname0.
      { apply elem_of_dom. erewrite <- rangeUpdate_dom by eauto.
        by apply elem_of_dom. }
      assert (name ∈ order) as Hin by (by eapply rangeOf_elem_of).
      destruct (rangeUpdate_all_stored _ _ _ _ _ _ Hok Hrange Hin Hname0)
        as [B HB].
      exists B. simpl. by eapply update_kv_present. }
    assert (is_Some (kv (issue (OpGet (BuildKey EnableConfigCenterKey)) w')
                       !! BuildKey LogConfigFileName)) as [B HB].
    { simpl. by eapply update_stored. }
    set (w1' := issue (OpGet (BuildKey EnableConfigCenterKey)) w') in *.
    assert (∀ res m2 w3, rangeUpdate order2 m w1' = (res, m2, w3) →
              putsOf k (issued w3) = putsOf k (issued w')) as Hrange2.
    { intros res m2 w3 Hr.
      rewrite (rangeUpdate_no_puts order2 m w1' res m2 w3 k
                 (λ name _ Hname, Hstored name Hname) Hr).
      apply putsOf_issue_get. }
    reconcile_inv Hrun2; try (simpl in *; congruence).
    + match goal with H : issued w2 = _ |- _ => rewrite H end.
      rewrite putsOf_app. simpl. by rewrite app_nil_r.
    + apply putsOf_issue_get.
    + eauto.
    + match goal with H : rangeUpdate order2 _ _ = _ |- _ =>
        rename H into Hr2 end.
      match goal with H : update _ _ _ = (res2, _, _) |- _ =>
        rename H into Hlog2 end.
      destruct (rangeUpdate_kv_present _ _ _ _ _ _ _ _ Hr2 HB) as [HB2 _].
      rewrite <- (Hrange2 _ _ _ Hr2).
      destruct (decide (BuildKey LogConfigFileName = k)) as [<-|Hne].
      * by eapply update_puts_present.
      * by eapply update_other_key.
Qed.

(** X8. On a store that answers every request, when the entries have
    distinct keys, the order of the range does not matter: two
    reconciliations of the same command, options and store that return no
    error end with the same command, the same structures and the same
    records. *)
Theorem reconciliation_order_is_irrelevant
    order1 order2 r opts w r1 opts1 w1 r2 opts2 w2 :
  (∀ h op, fault h op = None) →
  rangeOf (configMap opts) order1 →
  rangeOf (configMap opts) order2 →
  (∀ e e', is_Some (entryValue r opts e) → is_Some (entryValue r opts e') →
           BuildKey (entryName e) = BuildKey (entryName e') → e = e') →
  updateConfigFromEtcd order1 r opts w = (None, r1, opts1, w1) →
  updateConfigFromEtcd order2 r opts w = (None, r2, opts2, w2) →
  r1 = r2 ∧ opts1 = opts2 ∧ kv w1 = kv w2.
Proof.
  intros Hok Horder1 Horder2 Hkeys Hrun1 Hrun2.
  assert (∀ e e', e' ≠ e → is_Some (entryValue r opts e) →
            is_Some (entryValue r opts e') →
            BuildKey (entryName e') ≠ BuildKey (entryName e)) as Hdistinct.
  { intros e e' Hne He He' Heq. apply Hne. by apply Hkeys. }
  destruct (etcdClient r) as [c|] eqn:Hc; [destruct (resolveMode w) eqn:Hmode|].
  - reconcile_inv Hrun1; try congruence.
    reconcile_inv Hrun2; try congruence.
    repeat split; congruence.
  - (* enabled *)
    assert (∀ e v, entryValue r opts e = Some v →
              entryValue r1 opts1 e = entryValue r2 opts2 e) as Hvalues.
    { intros e v Hv.
      rewrite (reconcile_enabled_value _ _ _ _ _ _ _ _ _ _ Hc Hmode Horder1 Hv
                 (λ h, Hok h _) (λ e' Hne He', Hdistinct e e' Hne (ex_intro _ v Hv) He')
                 Hrun1).
      by rewrite (reconcile_enabled_value _ _ _ _ _ _ _ _ _ _ Hc Hmode Horder2 Hv
                 (λ h, Hok h _) (λ e' Hne He', Hdistinct e e' Hne (ex_intro _ v Hv) He')
                 Hrun2). }
    destruct (reconcile_frame _ _ _ _ _ _ _ _ Hrun1) as (Hr1 & Hp1 & Hd1).
    destruct (reconcile_frame _ _ _ _ _ _ _ _ Hrun2) as (Hr2 & Hp2 & Hd2).
    assert (log r1 = log r2) as Hlog.
    { pose proof (Hvalues LogEntry (log r) eq_refl) as Heq. simpl in Heq.
      congruence. }
    split; [by rewrite Hr1, Hr2, Hlog|]. split.
    + destruct opts1 as [p1 m1], opts2 as [p2 m2]. simpl in *.
      f_equal; [congruence|]. apply map_eq. intros name.
      destruct (configMap opts !! name) as [v|] eqn:Hv.
      * apply (Hvalues (ConfigEntry name) v Hv).
      * assert (name ∉ dom (configMap opts)) as Hnot
          by (by apply not_elem_of_dom).
        transitivity (@None V); [|symmetry];
          apply not_elem_of_dom; congruence.
    + assert (∀ order order' ra oa wa rb ob wb k data,
                rangeOf (configMap opts) order →
                rangeOf (configMap opts) order' →
                updateConfigFromEtcd order r opts w = (None, ra, oa, wa) →
                updateConfigFromEtcd order' r opts w = (None, rb, ob, wb) →
                kv w !! k = None →
                kv wa !! k = Some data → kv wb !! k = Some data) as Hsame.
      { intros order order' ra oa wa rb ob wb k data Ho Ho' Ha Hb Hk Hdata.
        destruct (reconcile_kv_new _ _ _ _ _ _ _ _ _ _ Ho Ha Hk Hdata)
          as (e & v & Hv & -> & Hma).
        destruct (reconcile_seed_stored _ _ _ _ _ _ _ _ _ _ Hc Hmode Ho' Hv Hk
                    (λ h, Hok h _) (λ h val, Hok h _)
                    (λ e' Hne He', Hdistinct e e' Hne (ex_intro _ v Hv) He')
                    Hb) as (data' & Hma' & Hdata').
        congruence. }
      apply map_eq. intros k.
      destruct (kv w !! k) as [B|] eqn:Hk.
      * rewrite (reconcile_kv_present _ _ _ _ _ _ _ _ _ _ Hrun1 Hk).
        by rewrite (reconcile_kv_present _ _ _ _ _ _ _ _ _ _ Hrun2 Hk).
      * apply option_eq. intros data. split; intros Hdata; eauto.
  - reconcile_inv Hrun1; try congruence.
  - reconcile_inv Hrun1; try congruence.
    reconcile_inv Hrun2; try congruence.
    done.
Qed.

(** *** The options *)

(** X9. Of the options given to [NewRootCmd], the last [WithLogName]
    decides the prefix of the logger and the last [WithConfigMap] the
    configuration map; without one, the prefix is "openim-chat-log" and the
    map is empty. *)
Theorem applyOptions_last_wins (os : list (@CmdOpt V)) :
  loggerPrefixName (applyOptions (optionOf <$> os))
  = default "openim-chat-log" (last (omap logNameOf os))
  ∧ configMap (applyOptions (optionOf <$> os))
    = default ∅ (last (omap configMapOf os)).
Proof.
  induction os as [|o os IH] using rev_ind; [done|].
  unfold applyOptions in *.
  rewrite fmap_app, foldl_app, !omap_app. simpl.
  destruct IH as [IHp IHm].
  destruct o as [logName|m]; simpl; rewrite ?app_nil_r, ?last_snoc; done.
Qed.

(** *** The local configuration *)

Lemma rangeLoad_cons name rest dir runtimeEnv (m : gmap string V) :
  rangeLoad (name :: rest) dir runtimeEnv m =
    match m !! name with
    | None => rangeLoad rest dir runtimeEnv m
    | Some v =>
        match Load dir name (EnvPrefixMap name) runtimeEnv v with
        | (v', Some err) => (Some err, <[name := v']> m)
        | (v', None) => rangeLoad rest dir runtimeEnv (<[name := v']> m)
        end
    end.
Proof. done. Qed.

(** One step of a run of the range of [initializeConfiguration]. *)
Ltac load_step Hrun v1 Hlook Hload :=
  rewrite rangeLoad_cons in Hrun;
  match type of Hrun with
  | match ?m !! ?n with _ => _ end = _ =>
      destruct (m !! n) as [?v0|] eqn:Hlook;
      [ match type of Hrun with
        | match Load ?d ?n' ?p ?e ?v' with _ => _ end = _ =>
            destruct (Load d n' p e v') as [v1 [?err|]] eqn:Hload
        end | ]
  end.

Lemma rangeLoad_not_in order dir runtimeEnv : ∀ (m : gmap string V) res m' name,
  name ∉ order → rangeLoad order dir runtimeEnv m = (res, m') →
  m' !! name = m !! name.
Proof.
  induction order as [|n rest IH]; intros m res m' name Hnot Hrun.
  { by simplify_eq/=. }
  apply not_elem_of_cons in Hnot as [Hne Hnot].
  load_step Hrun v1 Hlook Hload.
  - simplify_eq. by rewrite lookup_insert_ne.
  - erewrite IH by eauto. by rewrite lookup_insert_ne.
  - eauto.
Qed.

Lemma rangeLoad_dom order dir runtimeEnv : ∀ (m : gmap string V) res m',
  rangeLoad order dir runtimeEnv m = (res, m') → dom m' = dom m.
Proof.
  induction order as [|n rest IH]; intros m res m' Hrun.
  { by simplify_eq/=. }
  load_step Hrun v1 Hlook Hload.
  - simplify_eq. apply dom_insert_lookup_L. eauto.
  - erewrite IH by eauto. apply dom_insert_lookup_L. eauto.
  - eauto.
Qed.

(** In a range that succeeds, every structure is what [config.Load] has
    made of it, without error. *)
Lemma rangeLoad_ok order dir runtimeEnv : ∀ (m : gmap string V) m' name v,
  NoDup order → name ∈ order → m !! name = Some v →
  rangeLoad order dir runtimeEnv m = (None, m') →
  ∃ v', Load dir name (EnvPrefixMap name) runtimeEnv v = (v', None)
        ∧ m' !! name = Some v'.
Proof.
  induction order as [|n rest IH]; intros m m' name v Hnd Hin Hv Hrun.
  { inversion Hin. }
  apply NoDup_cons in Hnd as [Hnot Hnd].
  load_step Hrun v1 Hlook Hload; [done| |].
  - destruct (decide (n = name)) as [->|Hne].
    + simplify_eq. exists v1. split; [done|].
      erewrite rangeLoad_not_in by eauto. apply lookup_insert_eq.
    + apply elem_of_cons in Hin as [?|Hin]; [congruence|].
      apply (IH (<[n:=v1]> m) m' name v);
        [done|done|by rewrite lookup_insert_ne|done].
  - apply elem_of_cons in Hin as [->|Hin]; [congruence|]. eauto.
Qed.

(** A range that fails returns the error of the [config.Load] of one of
    its structures, which it leaves as that call has left it. *)
Lemma rangeLoad_error order dir runtimeEnv : ∀ (m : gmap string V) err m',
  NoDup order →
  rangeLoad order dir runtimeEnv m = (Some err, m') →
  ∃ name v v', name ∈ order ∧ m !! name = Some v
               ∧ Load dir name (EnvPrefixMap name) runtimeEnv v = (v', Some err)
               ∧ m' !! name = Some v'.
Proof.
  induction order as [|n rest IH]; intros m err m' Hnd Hrun.
  { by simplify_eq/=. }
  apply NoDup_cons in Hnd as [Hnot Hnd].
  load_step Hrun v1 Hlook Hload.
  - simplify_eq. exists n, v0, v1. rewrite lookup_insert_eq.
    repeat split; [left|done..].
  - destruct (IH _ _ _ Hnd Hrun) as (name & v & v' & Hin & Hv & Hl & Hv').
    exists name, v, v'. repeat split; [by right| |done..].
    rewrite lookup_insert_ne in Hv; [done|]. by intros ->.
  - destruct (IH _ _ _ Hnd Hrun) as (name & v & v' & Hin & Hv & Hl & Hv').
    exists name, v, v'. repeat split; [by right|done..].
Qed.

(** What [initializeConfiguration] leaves of the command. *)
Lemma initializeConfiguration_frame order cmd o r res r' o' :
  initializeConfiguration order cmd o r = (res, r', o') →
  command r' = command r ∧ processName r' = processName r
  ∧ port r' = port r ∧ prometheusPort r' = prometheusPort r
  ∧ loggerPrefixName o' = loggerPrefixName o.
Proof.
  unfold initializeConfiguration, getFlag. intros Hrun.
  destruct (flagConf cmd); [by simplify_eq|].
  destruct (flagTransferIndex cmd); [by simplify_eq|].
  destruct (rangeLoad _ _ _ _) as [[err|] m]; [by simplify_eq|].
  destruct (Load _ _ _ _ _) as [v err]. by simplify_eq.
Qed.

(** X10. When [initializeConfiguration] returns no error, both flags have
    parsed, the command holds their values as its configuration path and
    its index, the names of the map are as before, and every structure of
    the map, and the log configuration, is what [config.Load] has made of
    it, from the directory of the flag, without error. *)
Theorem initializeConfiguration_loads_every_entry order cmd opts r r' opts' :
  rangeOf (configMap opts) order →
  initializeConfiguration order cmd opts r = (None, r', opts') →
  flagConf cmd = inr (configPath r')
  ∧ flagTransferIndex cmd = inr (Index r')
  ∧ dom (configMap opts') = dom (configMap opts)
  ∧ ∀ e v, entryValue r opts e = Some v →
      ∃ v', loadEntry (configPath r') e v = (v', None)
            ∧ entryValue r' opts' e = Some v'.
Proof.
  intros Horder Hrun. pose proof (rangeOf_NoDup _ _ Horder) as Hnd.
  unfold initializeConfiguration, getFlag in Hrun.
  destruct (flagConf cmd) as [|dir]; [by simplify_eq|].
  destruct (flagTransferIndex cmd) as [|i]; [by simplify_eq|].
  destruct (rangeLoad _ _ _ _) as [[err|] m] eqn:Hrange; [by simplify_eq|].
  destruct (Load _ _ _ _ _) as [vlog errlog] eqn:Hlog.
  simplify_eq. simpl. repeat split; [by eapply rangeLoad_dom|].
  intros [name|] v Hv; simpl in *.
  - eapply rangeLoad_ok; eauto. by eapply rangeOf_elem_of.
  - simplify_eq. by exists vlog.
Qed.

(** X11. An error of [initializeConfiguration] is the wrapped error of a
    flag, with the command and the options as they were, or the error of
    the [config.Load] of an entry, as it is; when a structure of the map
    fails to load, the log configuration is not loaded. *)
Theorem initializeConfiguration_errors order cmd opts r err r' opts' :
  rangeOf (configMap opts) order →
  initializeConfiguration order cmd opts r = (Some err, r', opts') →
  (∃ fe, (flagConf cmd = inl fe
          ∨ ((∃ dir, flagConf cmd = inr dir) ∧ flagTransferIndex cmd = inl fe))
         ∧ err = ErrsWrap fe ∧ r' = r ∧ opts' = opts)
  ∨ (∃ e v v', flagConf cmd = inr (configPath r')
               ∧ entryValue r opts e = Some v
               ∧ loadEntry (configPath r') e v = (v', Some err)
               ∧ entryValue r' opts' e = Some v'
               ∧ (e ≠ LogEntry → log r' = log r)).
Proof.
  intros Horder Hrun. pose proof (rangeOf_NoDup _ _ Horder) as Hnd.
  unfold initializeConfiguration, getFlag in Hrun.
  destruct (flagConf cmd) as [fe|dir]; [simplify_eq; left; eauto 10|].
  destruct (flagTransferIndex cmd) as [fe|i].
  { simplify_eq. left. exists fe. split; [right; eauto|done]. }
  right.
  destruct (rangeLoad _ _ _ _) as [[rerr|] m] eqn:Hrange.
  - simplify_eq.
    destruct (rangeLoad_error _ _ _ _ _ _ Hnd Hrange)
      as (name & v & v' & _ & Hv & Hload & Hv').
    by exists (ConfigEntry name), v, v'.
  - destruct (Load _ _ _ _ _) as [vlog errlog] eqn:Hlog. simplify_eq.
    by exists LogEntry, (log r), vlog.
Qed.

(** *** The bootstrap *)

(** X12. [initEtcd] sends no request and logs nothing.  When both flags
    parse, the discovery configuration loads and selects etcd, and the
    registry is one of etcd, it returns no error, the client of the command
    is that of the registry, and its connection is open.  In every other
    case it leaves the client and the connections as they are. *)
Theorem initEtcd_connects_only_on_etcd r w res r' w' :
  initEtcd r w = (res, r', w') →
  kv w' = kv w ∧ issued w' = issued w ∧ warned w' = warned w
  ∧ log r' = log r
  ∧ (∀ dir i disConfig c,
       flagConf (command r) = inr dir →
       flagTransferIndex (command r) = inr i →
       Load dir DiscoveryConfigFileName
            (EnvPrefixMap DiscoveryConfigFileName)
            PrintRuntimeEnvironment zeroDiscovery = (disConfig, None) →
       DiscoveryEnable disConfig = ETCDCONST →
       NewDiscoveryRegister disConfig PrintRuntimeEnvironment = Some c →
       res = Returns None ∧ etcdClient r' = Some c ∧ conns w' = c :: conns w)
  ∧ ((etcdClient r' = etcdClient r ∧ conns w' = conns w)
     ∨ ∃ dir i disConfig c,
         flagConf (command r) = inr dir
         ∧ flagTransferIndex (command r) = inr i
         ∧ Load dir DiscoveryConfigFileName
                (EnvPrefixMap DiscoveryConfigFileName)
                PrintRuntimeEnvironment zeroDiscovery = (disConfig, None)
         ∧ DiscoveryEnable disConfig = ETCDCONST
         ∧ NewDiscoveryRegister disConfig PrintRuntimeEnvironment = Some c).
Proof.
  unfold initEtcd, getFlag. intros Hrun.
  destruct (flagConf (command r)) as [|dir] eqn:Hconf.
  { simplify_eq. split_and!; [done..|by left]. }
  destruct (flagTransferIndex (command r)) as [|i] eqn:Hidx.
  { simplify_eq. split_and!; [done..|by left]. }
  destruct (Load _ _ _ _ _) as [disConfig [err|]] eqn:Hload.
  { simplify_eq. split_and!; [done|done|done|done| |by left].
    intros ???? [= <-] _ Hload'. rewrite Hload in Hload'. done. }
  case_decide as Hsel.
  2:{ simplify_eq. split_and!; [done|done|done|done| |by left].
      intros ???? [= <-] _ Hload'. rewrite Hload in Hload'.
      by injection Hload' as <-. }
  destruct (NewDiscoveryRegister _ _) as [c|] eqn:Hreg.
  2:{ simplify_eq. split_and!; [done|done|done|done| |by left].
      intros ???? [= <-] _ Hload'. rewrite Hload in Hload'.
      injection Hload' as <-. congruence. }
  simplify_eq. split_and!; [done|done|done|done| |].
  - intros ???? [= <-] _ Hload'. rewrite Hload in Hload'.
    injection Hload' as <-. intros _ Hreg'. rewrite Hreg in Hreg'.
    by injection Hreg' as <-.
  - right. by exists dir, i, disConfig, c.
Qed.

Lemma initEtcd_frame r w res r' w' :
  initEtcd r w = (res, r', w') →
  command r' = command r ∧ processName r' = processName r
  ∧ port r' = port r ∧ prometheusPort r' = prometheusPort r
  ∧ kv w' = kv w ∧ issued w' = issued w.
Proof.
  unfold initEtcd, getFlag. intros Hrun.
  destruct (flagConf (command r)); [by simplify_eq|].
  destruct (flagTransferIndex (command r)); [by simplify_eq|].
  destruct (Load _ _ _ _ _) as [disConfig [err|]]; [by simplify_eq|].
  case_decide; [|by simplify_eq].
  destruct (NewDiscoveryRegister _ _); by simplify_eq.
Qed.

(** The steps of a bootstrap that returns no error. *)
Lemma persistentPreRun_success loadOrder updateOrder r cmd opts w r' o' w' :
  persistentPreRun loadOrder updateOrder r cmd opts w = (Returns None, r', o', w') →
  ∃ r1 w1 r2 o2 w3 c,
    initEtcd r w = (Returns None, r1, w1)
    ∧ initializeConfiguration loadOrder cmd (applyOptions opts) r1 = (None, r2, o2)
    ∧ updateConfigFromEtcd updateOrder r2 o2 w1 = (None, r', o', w3)
    ∧ initializeLogger o' r' = None
    ∧ etcdClient r' = Some c
    ∧ fault (issued w3) (OpClose c) = None
    ∧ w' = disconnect c (issue (OpClose c) w3).
Proof.
  unfold persistentPreRun. intros Hrun.
  destruct (initEtcd r w) as [[[[err|]|msg] r1] w1] eqn:Hinit;
    [by simplify_eq| |by simplify_eq].
  destruct (initializeConfiguration _ _ _ _) as [[[err|] r2] o2] eqn:Hcfg;
    [by simplify_eq|].
  destruct (updateConfigFromEtcd _ _ _ _) as [[[[err|] r3] o3] w3] eqn:Hrec;
    [by simplify_eq|].
  destruct (initializeLogger o3 r3) as [err|] eqn:Hlog; [by simplify_eq|].
  unfold Close in Hrun.
  destruct (etcdClient r3) as [c|] eqn:Hc; [|by simplify_eq].
  destruct (fault (issued w3) (OpClose c)) as [err|] eqn:Hclose;
    [by simplify_eq|].
  simplify_eq. by exists r1, w1, r2, o2, w3, c.
Qed.

(** X13. When [persistentPreRun] returns no error, the command has a
    client, the last request issued is the [Close] of that client, and its
    connection is no longer open. *)
Theorem successful_bootstrap_closes_the_client
    loadOrder updateOrder r cmd opts w r' o' w' :
  persistentPreRun loadOrder updateOrder r cmd opts w = (Returns None, r', o', w') →
  ∃ c, etcdClient r' = Some c
       ∧ last (issued w') = Some (OpClose c)
       ∧ c ∉ conns w'.
Proof.
  intros Hrun.
  destruct (persistentPreRun_success _ _ _ _ _ _ _ _ _ Hrun)
    as (r1 & w1 & r2 & o2 & w3 & c & _ & _ & _ & _ & Hc & _ & ->).
  exists c. split; [done|]. simpl. split; [apply last_snoc|].
  rewrite list_elem_of_filter. by intros [? _].
Qed.

(** X14. When [persistentPreRun] returns no error, the flags of the
    command that runs have parsed: the configuration path of the command
    is the value of the flag of the directory and [Index] gives the value
    of the flag of the index; and both loggers have been made, without
    error, from the log configuration the command ends with, under the
    prefix of the options. *)
Theorem successful_bootstrap_reads_flags_and_starts_loggers
    loadOrder updateOrder r cmd opts w r' o' w' :
  persistentPreRun loadOrder updateOrder r cmd opts w = (Returns None, r', o', w') →
  flagConf cmd = inr (configPath r')
  ∧ flagTransferIndex cmd = inr (Index r')
  ∧ loggerPrefixName o' = loggerPrefixName (applyOptions opts)
  ∧ InitLoggerFromConfig (loggerPrefixName o') (processName r') (log r') = None
  ∧ InitConsoleLogger (processName r') (log r') = None.
Proof.
  intros Hrun.
  destruct (persistentPreRun_success _ _ _ _ _ _ _ _ _ Hrun)
    as (r1 & w1 & r2 & o2 & w3 & c & _ & Hcfg & Hrec & Hlog & _).
  destruct (reconcile_frame _ _ _ _ _ _ _ _ Hrec) as (Hr & Hp & _).
  destruct (initializeConfiguration_frame _ _ _ _ _ _ _ Hcfg)
    as (_ & _ & _ & _ & Hp2).
  assert (flagConf cmd = inr (configPath r2)
          ∧ flagTransferIndex cmd = inr (index r2)) as [Hconf Hidx].
  { unfold initializeConfiguration, getFlag in Hcfg.
    destruct (flagConf cmd); [by simplify_eq|].
    destruct (flagTransferIndex cmd); [by simplify_eq|].
    destruct (rangeLoad _ _ _ _) as [[err|] m]; [by simplify_eq|].
    destruct (Load _ _ _ _ _) as [v err]. by simplify_eq. }
  unfold Index. rewrite Hr. simpl.
  split; [done|]. split; [done|]. split; [congruence|].
  unfold initializeLogger in Hlog.
  destruct (InitLoggerFromConfig _ _ _) as [err|] eqn:Hl1; [done|].
  destruct (InitConsoleLogger _ _) as [err|] eqn:Hl2; [done|].
  rewrite Hr in Hl1, Hl2. simpl in Hl1, Hl2. done.
Qed.

(** X15. [persistentPreRun] sends a request to the store only after the
    discovery configuration and every local configuration have loaded: a
    run that has issued a request has passed [initEtcd] and
    [initializeConfiguration] without error. *)
Theorem bootstrap_asks_the_store_after_local_load
    loadOrder updateOrder r cmd opts w res r' o' w' :
  persistentPreRun loadOrder updateOrder r cmd opts w = (res, r', o', w') →
  issued w' ≠ issued w →
  ∃ r1 w1 r2 o2,
    initEtcd r w = (Returns None, r1, w1)
    ∧ initializeConfiguration loadOrder cmd (applyOptions opts) r1
      = (None, r2, o2).
Proof.
  unfold persistentPreRun. intros Hrun Hissued.
  destruct (initEtcd r w) as [[ires r1] w1] eqn:Hinit.
  destruct (initEtcd_frame _ _ _ _ _ Hinit) as (_ & _ & _ & _ & _ & Hi).
  destruct ires as [[err|]|msg]; [simplify_eq; congruence| |simplify_eq; congruence].
  destruct (initializeConfiguration _ _ _ _) as [[[err|] r2] o2] eqn:Hcfg;
    [simplify_eq; congruence|].
  by exists r1, w1, r2, o2.
Qed.

(** X16. Once [initEtcd] has given the command a client,
    [persistentPreRun] does not panic: the type assertion of [initEtcd]
    has held, and [Close] is not called on a nil client, whichever way
    the steps in between end. *)
Theorem bootstrap_with_a_client_does_not_panic
    loadOrder updateOrder r cmd opts w r1 w1 c :
  initEtcd r w = (Returns None, r1, w1) →
  etcdClient r1 = Some c →
  ¬ panics (persistentPreRun loadOrder updateOrder r cmd opts w).1.1.1.
Proof.
  intros Hinit Hc [msg Hpanic]. revert Hpanic.
  unfold persistentPreRun. rewrite Hinit.
  destruct (initializeConfiguration _ _ _ _) as [[[err|] r2] o2] eqn:Hcfg;
    [done|].
  pose proof (initializeConfiguration_etcdClient _ _ _ _ _ _ _ Hcfg) as Hc2.
  destruct (updateConfigFromEtcd _ _ _ _) as [[[[err|] r3] o3] w3] eqn:Hrec;
    [done|].
  destruct (updateConfigFromEtcd_conns _ _ _ _ _ _ _ _ Hrec) as [_ Hc3].
  destruct (initializeLogger o3 r3) as [err|]; [done|].
  unfold Close. rewrite Hc3, Hc2, Hc.
  by destruct (fault (issued w3) (OpClose c)).
Qed.


End Properties.

(** ** The properties at the concrete command *)

Module DemoFacts.
Import Demo.

(** The three ways to the mode Disabled: no control key, the literal
    "disable", a get that fails. *)
Example disabled_modes :
  modeOf (world emptyStore) = Disabled
  ∧ modeOf (world disabledStore) = Disabled
  ∧ resolveMode (consts := demoConstants)
      (etcd := demoStore (getsFail (key "enable-config-center")))
      (world enabledStore) = Disabled.
Proof. by vm_compute. Qed.

Lemma rangeOf_opts0 : rangeOf (configMap opts0) ["share"; "redis"].
Proof. unfold rangeOf. by vm_compute. Qed.

Lemma rangeOf_opts0_swapped : rangeOf (configMap opts0) ["redis"; "share"].
Proof. unfold rangeOf. vm_compute. apply perm_swap. Qed.

(** The keys of the demonstration are the names under one prefix. *)
Lemma key_inj name1 name2 : key name1 = key name2 → name1 = name2.
Proof. unfold key. simpl. by intros [=]. Qed.

(** The entries of the demonstration have distinct keys. *)
Lemma entries_have_distinct_keys e e' :
  is_Some (entryValue cmd0 opts0 e) → is_Some (entryValue cmd0 opts0 e') →
  key (entryName (consts := demoConstants) e)
  = key (entryName (consts := demoConstants) e') → e = e'.
Proof.
  intros He He' Hkey. apply key_inj in Hkey.
  destruct e as [name|], e' as [name'|]; simpl in Hkey; subst; try done.
  - destruct He as [v Hv]. by vm_compute in Hv.
  - destruct He' as [v Hv]. by vm_compute in Hv.
Qed.

(** The runs, as they end. *)
Example adopted_run :
  adopted.1.1.1 = None
  ∧ configMap adopted.1.2 !! "share" = Some (Fields [("secret", "central"); ("region", "east")])
  ∧ configMap adopted.1.2 !! "redis" = Some localRedis
  ∧ log adopted.1.1.2 = localLog
  ∧ issued adopted.2
    = [OpGet "/chat/config/enable-config-center";
       OpGet "/chat/config/share";
       OpGet "/chat/config/redis"; OpPut "/chat/config/redis" "{address:local}";
       OpGet "/chat/config/log"; OpPut "/chat/config/log" "{level:3}"].
Proof. by vm_compute. Qed.

Example completed_run :
  completed.1.1.1 = Returns None
  ∧ conns completed.2 = []
  ∧ last (issued completed.2) = Some (OpClose 7).
Proof. by vm_compute. Qed.

(** *** The claims at the concrete command *)

Lemma reconciled_entry_is_local_or_decoded_witness :
  ∃ v', entryValue adopted.1.1.2 adopted.1.2 (ConfigEntry "share") = Some v'
        ∧ (v' = localShare
           ∨ ∃ B, kv adopted.2 !! key "share" = Some B
                  ∧ unmarshal B localShare = (v', None)).
Proof.
  apply (reconciled_entry_is_local_or_decoded
           (consts := demoConstants) (json := demoJson)
           (etcd := demoStore reliable)
           ["share"; "redis"] cmd0 opts0 (world sharedStore)
           adopted.1.1.2 adopted.1.2 adopted.2 (ConfigEntry "share") localShare).
  - apply rangeOf_opts0.
  - by vm_compute.
  - by vm_compute.
Defined.

(** The claim C1 as it is stated fails: the store is enabled and its
    record of "share" has the field secret and leaves the field region
    out.  The reconciliation returns no error, and "share" ends with the
    secret of the record and the region of the local file: it is neither
    the structure that was loaded nor what the record decodes to on its
    own, into a structure with blank fields. *)
Lemma entry_is_half_merged_after_success :
  modeOf (world sharedStore) = Enabled
  ∧ rangeOf (configMap opts0) ["share"; "redis"]
  ∧ entryValue cmd0 opts0 (ConfigEntry "share") = Some localShare
  ∧ fieldOf "secret" localShare = Some "local"
  ∧ fieldOf "region" localShare = Some "east"
  ∧ kv (world sharedStore) !! key "share" = Some "{secret:central}"
  ∧ adopted.1.1.1 = None
  ∧ ∃ v', entryValue adopted.1.1.2 adopted.1.2 (ConfigEntry "share") = Some v'
          ∧ fieldOf "secret" v' = Some "central"
          ∧ fieldOf "region" v' = Some "east"
          ∧ v' ≠ localShare
          ∧ v' ≠ (unmarshal "{secret:central}"
                    (Fields [("secret", ""); ("region", "")])).1.
Proof.
  split; [by vm_compute|]. split; [apply rangeOf_opts0|].
  split_and!; try by vm_compute.
  exists (Fields [("secret", "central"); ("region", "east")]).
  split_and!; by vm_compute.
Qed.

Lemma disabled_mode_is_a_noop_witness :
  ∃ w', reconcile reliable ["share"; "redis"] cmd0 opts0 (world disabledStore)
        = (None, cmd0, opts0, w')
        ∧ kv w' = kv (world disabledStore)
        ∧ issued w'
          = issued (world disabledStore) ++ [OpGet (key "enable-config-center")].
Proof.
  apply (disabled_mode_is_a_noop (consts := demoConstants) (json := demoJson)
           (etcd := demoStore reliable)
           ["share"; "redis"] cmd0 opts0 (world disabledStore) 7).
  - reflexivity.
  - by vm_compute.
Defined.

Lemma unknown_mode_aborts_witness :
  reconcile reliable ["share"; "redis"] cmd0 opts0 (world maybeStore)
  = (Some (ErrsNew "unknown EnableConfigCenter value"), cmd0, opts0,
     issue (OpGet (key "enable-config-center")) (world maybeStore)).
Proof.
  apply (unknown_mode_aborts (consts := demoConstants) (json := demoJson)
           (etcd := demoStore reliable)
           ["share"; "redis"] cmd0 opts0 (world maybeStore) 7).
  - reflexivity.
  - by vm_compute.
Defined.





(** Why the entry must have its key to itself: a configuration map that
    has the name of the log configuration shares its key with the log
    configuration of the command.  While the puts fail, both entries find
    no record and both put. *)
Example shared_key_is_put_twice :
  sharedKey.1.1.1 = None
  ∧ putsOf (key "log") (issued sharedKey.2)
    = ["{level:9}"; "{level:3}"].
Proof. by vm_compute. Qed.


Lemma corrupt_record_is_fatal_witness :
  ∃ err r' opts' w',
    reconcile reliable ["share"; "redis"] cmd0 opts0 (world corruptStore)
    = (Some err, r', opts', w').
Proof.
  apply (corrupt_record_is_fatal (consts := demoConstants) (json := demoJson)
           (etcd := demoStore reliable)
           ["share"; "redis"] cmd0 opts0 (world corruptStore) 7
           (ConfigEntry "redis") localRedis "not json").
  - reflexivity.
  - by vm_compute.
  - apply rangeOf_opts0.
  - by vm_compute.
  - by vm_compute.
  - by intros h.
  - vm_compute. by eexists.
Defined.

(** The claim C7 as it is stated fails when the structure does not
    serialize: the store is enabled and holds no record of "share", whose
    structure [json.Marshal] refuses.  The reconciliation returns the
    argument error to its caller; nothing is logged and nothing is put. *)
Lemma marshal_failure_is_returned :
  modeOf (world enabledStore) = Enabled
  ∧ kv (world enabledStore) !! key "share" = None
  ∧ marshal Unsupported = inl (LibError "json: unsupported type: chan int")
  ∧ unserializable.1.1.1
    = Some (ErrArgsWithDetail (LibError "json: unsupported type: chan int"))
  ∧ warned unserializable.2 = []
  ∧ putsOf (key "share") (issued unserializable.2) = [].
Proof. repeat split; by vm_compute. Qed.

Lemma put_failure_is_logged_not_fatal_witness :
  update (consts := demoConstants) (json := demoJson)
    (etcd := demoStore (putsFail (key "share")))
    "share" localShare (world enabledStore)
  = (None, localShare,
     afterPutError (key "share") "{secret:local,region:east}"
       (LibError "context deadline exceeded") (world enabledStore))
  ∧ ∃ err r' opts' w',
      unserializable = (Some err, r', opts', w')
      ∧ (err = ErrArgsWithDetail (LibError "json: unsupported type: chan int")
         ∨ abortsBefore (consts := demoConstants) (json := demoJson)
             (etcd := demoStore reliable) ["share"]
             {| loggerPrefixName := "openim-chat-log";
                configMap := {[ "share" := Unsupported ]} |}
             (world enabledStore) (ConfigEntry "share") err)
      ∧ entryValue r' opts' (ConfigEntry "share") = Some Unsupported
      ∧ putsOf (key "share") (issued w')
        = putsOf (key "share") (issued (world enabledStore)).
Proof.
  split.
  - destruct (put_failure_is_logged_not_fatal
                (consts := demoConstants) (json := demoJson)
                (etcd := demoStore (putsFail (key "share")))
                (ConfigEntry "share")) as [Hput _].
    + by intros h.
    + destruct (Hput (LibError "context deadline exceeded")) as [Hone _].
      * intros h val. by vm_compute.
      * apply Hone; [by vm_compute|reflexivity].
  - destruct (put_failure_is_logged_not_fatal
                (consts := demoConstants) (json := demoJson)
                (etcd := demoStore reliable)
                (ConfigEntry "share")) as (_ & _ & _ & Hser).
    + by intros h.
    + apply (Hser ["share"] cmd0 _ (world enabledStore) 7 Unsupported
               (LibError "json: unsupported type: chan int")).
      * reflexivity.
      * by vm_compute.
      * unfold rangeOf. by vm_compute.
      * by vm_compute.
      * by vm_compute.
      * reflexivity.
      * intros [name|] Hne He' Hkey.
        -- apply key_inj in Hkey. simpl in Hkey. congruence.
        -- apply key_inj in Hkey. discriminate.
Defined.

Lemma get_failure_leaves_entry_untouched_witness :
  update (consts := demoConstants) (json := demoJson)
    (etcd := demoStore (getsFail (key "share")))
    "share" localShare (world sharedStore)
  = (None, localShare,
     afterGetError (key "share") (LibError "context deadline exceeded")
       (world sharedStore)).
Proof.
  apply (get_failure_leaves_entry_untouched
           (consts := demoConstants) (json := demoJson)
           (etcd := demoStore (getsFail (key "share")))
           (ConfigEntry "share") (LibError "context deadline exceeded")).
  intros h. by vm_compute.
Defined.

(** C9 fails on the code.  The discovery configuration selects etcd and
    [initEtcd] opens the connection 7; the control key holds "maybe";
    [persistentPreRun] returns the error of [updateConfigFromEtcd] at line
    117 and never reaches the call of [Close] at line 122: the connection
    is open when it returns.  The run that succeeds closes it. *)
Theorem persistentPreRun_returns_with_connection_open :
  refused.1.1.1 = Returns (Some (ErrsNew "unknown EnableConfigCenter value"))
  ∧ etcdClient refused.1.1.2 = Some 7
  ∧ conns refused.2 = [7]
  ∧ issued refused.2 = [OpGet "/chat/config/enable-config-center"]
  ∧ completed.1.1.1 = Returns None
  ∧ conns completed.2 = []
  ∧ last (issued completed.2) = Some (OpClose 7).
Proof. repeat split; by vm_compute. Qed.

Lemma nil_client_bootstrap_cannot_complete_witness :
  panicked.1.1.1 = Panics "invalid memory address or nil pointer dereference"
  ∧ issued panicked.2 = [].
Proof.
  destruct (nil_client_bootstrap_cannot_complete
              (consts := demoConstants) (json := demoJson)
              (etcd := demoStore reliable) (proc := demoEnvironment "kubernetes")
              ["share"; "redis"] ["share"; "redis"]
              newCmd command0 withMap (world sharedStore)
              "/etc/chat" 0%Z (Fields [("enable", "kubernetes")]))
    as (_ & _ & _ & _ & Hpanic).
  - reflexivity.
  - reflexivity.
  - reflexivity.
  - by vm_compute.
  - by vm_compute.
  - unfold panicked, bootstrap.
    by rewrite (Hpanic _ _ eq_refl eq_refl).
Defined.

(** *** More properties at the concrete command *)

Lemma rangeOf_optsMissing : rangeOf (configMap optsMissing) ["missing"].
Proof. unfold rangeOf. by vm_compute. Qed.


Lemma reconciliation_requests_stay_on_entry_keys_witness :
  ∃ ops, issued seeded.2 = issued (world enabledStore) ++ ops
         ∧ (length ops ≤ 2 * length ["share"; "redis"] + 3)%nat
         ∧ Forall (entryRequest (consts := demoConstants) cmd0 opts0) ops
         ∧ ∀ c, OpClose c ∉ ops.
Proof.
  apply (reconciliation_requests_stay_on_entry_keys
           (consts := demoConstants) (json := demoJson)
           (etcd := demoStore reliable)
           ["share"; "redis"] cmd0 opts0 (world enabledStore)
           seeded.1.1.1 seeded.1.1.2 seeded.1.2 seeded.2).
  by vm_compute.
Defined.

Lemma reconciliation_warnings_wrap_client_errors_witness :
  (∃ ops ws, issued sharedKey.2 = issued (world enabledStore) ++ ops
             ∧ warned sharedKey.2 = warned (world enabledStore) ++ ws
             ∧ ws.*2 = ErrsWrap
                       <$> faultsOf (etcd := demoStore (putsFail (key "log")))
                             (issued (world enabledStore)) ops)
  ∧ ((∀ h op, putsFail (key "log") h op = None) →
     warned sharedKey.2 = warned (world enabledStore)).
Proof.
  apply (reconciliation_warnings_wrap_client_errors
           (consts := demoConstants) (json := demoJson)
           (etcd := demoStore (putsFail (key "log")))
           ["log"] cmd0
           {| loggerPrefixName := "openim-chat-log";
              configMap := {[ "log" := Fields [("level", "9")] ]} |}
           (world enabledStore)
           sharedKey.1.1.1 sharedKey.1.1.2 sharedKey.1.2 sharedKey.2).
  by vm_compute.
Defined.

Lemma reconciliation_errors_are_of_mode_or_json_witness :
  (modeOf (world corruptStore) = Unknown
   ∧ ErrsWrapMsg (LibError "invalid character looking for beginning of value")
       "failed to unmarshal config from etcd"
     = ErrsNew "unknown EnableConfigCenter value")
  ∨ (modeOf (world corruptStore) = Enabled
     ∧ ((∃ v e, marshal v = inl e
                ∧ ErrsWrapMsg
                    (LibError "invalid character looking for beginning of value")
                    "failed to unmarshal config from etcd"
                  = ErrArgsWithDetail e)
        ∨ (∃ B v e, (unmarshal B v).2 = Some e
                    ∧ ErrsWrapMsg
                        (LibError "invalid character looking for beginning of value")
                        "failed to unmarshal config from etcd"
                      = ErrsWrapMsg e "failed to unmarshal config from etcd"))).
Proof.
  apply (reconciliation_errors_are_of_mode_or_json
           (consts := demoConstants) (json := demoJson)
           (etcd := demoStore reliable)
           ["redis"; "share"] cmd0 opts0 (world corruptStore)
           (ErrsWrapMsg
              (LibError "invalid character looking for beginning of value")
              "failed to unmarshal config from etcd")
           aborted.1.1.2 aborted.1.2 aborted.2).
  by vm_compute.
Defined.

Lemma reconciliation_changes_only_structures_witness :
  adopted.1.1.2 = set_log (log adopted.1.1.2) cmd0
  ∧ loggerPrefixName adopted.1.2 = loggerPrefixName opts0
  ∧ dom (configMap adopted.1.2) = dom (configMap opts0)
  ∧ conns adopted.2 = conns (world sharedStore).
Proof.
  apply (reconciliation_changes_only_structures
           (consts := demoConstants) (json := demoJson)
           (etcd := demoStore reliable)
           ["share"; "redis"] cmd0 opts0 (world sharedStore) adopted.1.1.1).
  by vm_compute.
Defined.


Lemma second_reconciliation_puts_nothing_witness :
  putsOf (key "share") (issued again.2)
  = putsOf (key "share") (issued seeded.2).
Proof.
  apply (second_reconciliation_puts_nothing
           (consts := demoConstants) (json := demoJson)
           (etcd := demoStore reliable)
           ["share"; "redis"] ["redis"; "share"] cmd0 opts0 (world enabledStore)
           seeded.1.1.2 seeded.1.2 seeded.2
           again.1.1.1 again.1.1.2 again.1.2 again.2).
  - by intros h op.
  - apply rangeOf_opts0.
  - by vm_compute.
  - by vm_compute.
Defined.

Lemma reconciliation_order_is_irrelevant_witness :
  seeded.1.1.2 = seededSwapped.1.1.2
  ∧ seeded.1.2 = seededSwapped.1.2
  ∧ kv seeded.2 = kv seededSwapped.2.
Proof.
  apply (reconciliation_order_is_irrelevant
           (consts := demoConstants) (json := demoJson)
           (etcd := demoStore reliable)
           ["share"; "redis"] ["redis"; "share"] cmd0 opts0 (world enabledStore)
           seeded.1.1.2 seeded.1.2 seeded.2
           seededSwapped.1.1.2 seededSwapped.1.2 seededSwapped.2).
  - by intros h op.
  - apply rangeOf_opts0.
  - apply rangeOf_opts0_swapped.
  - apply entries_have_distinct_keys.
  - by vm_compute.
  - by vm_compute.
Defined.

Lemma initializeConfiguration_loads_every_entry_witness :
  flagConf command0 = inr (configPath loaded.1.2)
  ∧ flagTransferIndex command0 = inr (Index loaded.1.2)
  ∧ dom (configMap loaded.2) = dom (configMap opts0)
  ∧ ∀ e v, entryValue newCmd opts0 e = Some v →
      ∃ v', loadEntry (consts := demoConstants)
              (proc := demoEnvironment "etcd") (configPath loaded.1.2) e v
            = (v', None)
            ∧ entryValue loaded.1.2 loaded.2 e = Some v'.
Proof.
  apply (initializeConfiguration_loads_every_entry
           (consts := demoConstants) (proc := demoEnvironment "etcd")
           ["share"; "redis"] command0 opts0 newCmd).
  - apply rangeOf_opts0.
  - by vm_compute.
Defined.

Lemma initializeConfiguration_errors_witness :
  (∃ fe, (flagConf command0 = inl fe
          ∨ ((∃ dir, flagConf command0 = inr dir)
             ∧ flagTransferIndex command0 = inl fe))
         ∧ LibError "config file not found" = ErrsWrap fe
         ∧ unloaded.1.2 = newCmd ∧ unloaded.2 = optsMissing)
  ∨ (∃ e v v', flagConf command0 = inr (configPath unloaded.1.2)
               ∧ entryValue newCmd optsMissing e = Some v
               ∧ loadEntry (consts := demoConstants)
                   (proc := demoEnvironment "etcd")
                   (configPath unloaded.1.2) e v
                 = (v', Some (LibError "config file not found"))
               ∧ entryValue unloaded.1.2 unloaded.2 e = Some v'
               ∧ (e ≠ LogEntry → log unloaded.1.2 = log newCmd)).
Proof.
  apply (initializeConfiguration_errors
           (consts := demoConstants) (proc := demoEnvironment "etcd")
           ["missing"] command0 optsMissing newCmd).
  - apply rangeOf_optsMissing.
  - by vm_compute.
Defined.

Lemma initEtcd_connects_only_on_etcd_witness :
  kv connected.2 = kv (world sharedStore)
  ∧ issued connected.2 = issued (world sharedStore)
  ∧ warned connected.2 = warned (world sharedStore)
  ∧ log connected.1.2 = log newCmd
  ∧ (∀ dir i disConfig c,
       flagConf command0 = inr dir →
       flagTransferIndex command0 = inr i →
       load (files "etcd") dir "discovery" "" "source" (Fields [("enable", "")])
       = (disConfig, None) →
       enableOf disConfig = "etcd" →
       NewDiscoveryRegister (Environment := demoEnvironment "etcd")
         disConfig "source" = Some c →
       connected.1.1 = Returns None
       ∧ etcdClient connected.1.2 = Some c
       ∧ conns connected.2 = c :: conns (world sharedStore))
  ∧ ((etcdClient connected.1.2 = etcdClient newCmd
      ∧ conns connected.2 = conns (world sharedStore))
     ∨ ∃ dir i disConfig c,
         flagConf command0 = inr dir
         ∧ flagTransferIndex command0 = inr i
         ∧ load (files "etcd") dir "discovery" "" "source" (Fields [("enable", "")])
           = (disConfig, None)
         ∧ enableOf disConfig = "etcd"
         ∧ NewDiscoveryRegister (Environment := demoEnvironment "etcd")
             disConfig "source" = Some c).
Proof.
  apply (initEtcd_connects_only_on_etcd
           (consts := demoConstants) (proc := demoEnvironment "etcd")
           newCmd (world sharedStore)).
  by vm_compute.
Defined.

Lemma successful_bootstrap_closes_the_client_witness :
  ∃ c, etcdClient completed.1.1.2 = Some c
       ∧ last (issued completed.2) = Some (OpClose c)
       ∧ c ∉ conns completed.2.
Proof.
  apply (successful_bootstrap_closes_the_client
           (consts := demoConstants) (json := demoJson)
           (etcd := demoStore reliable) (proc := demoEnvironment "etcd")
           ["share"; "redis"] ["share"; "redis"]
           newCmd command0 withMap (world sharedStore) _ completed.1.2).
  by vm_compute.
Defined.

Lemma successful_bootstrap_reads_flags_and_starts_loggers_witness :
  flagConf command0 = inr (configPath completed.1.1.2)
  ∧ flagTransferIndex command0 = inr (Index completed.1.1.2)
  ∧ loggerPrefixName completed.1.2 = loggerPrefixName (applyOptions withMap)
  ∧ InitLoggerFromConfig (Environment := demoEnvironment "etcd")
      (loggerPrefixName completed.1.2) (processName completed.1.1.2)
      (log completed.1.1.2) = None
  ∧ InitConsoleLogger (Environment := demoEnvironment "etcd")
      (processName completed.1.1.2) (log completed.1.1.2) = None.
Proof.
  apply (successful_bootstrap_reads_flags_and_starts_loggers
           (consts := demoConstants) (json := demoJson)
           (etcd := demoStore reliable) (proc := demoEnvironment "etcd")
           ["share"; "redis"] ["share"; "redis"]
           newCmd command0 withMap (world sharedStore) _ _ completed.2).
  by vm_compute.
Defined.

Lemma bootstrap_asks_the_store_after_local_load_witness :
  ∃ r1 w1 r2 o2,
    initEtcd (consts := demoConstants) (proc := demoEnvironment "etcd")
      newCmd (world maybeStore) = (Returns None, r1, w1)
    ∧ initializeConfiguration (consts := demoConstants)
        (proc := demoEnvironment "etcd")
        ["share"; "redis"] command0 (applyOptions withMap) r1
      = (None, r2, o2).
Proof.
  apply (bootstrap_asks_the_store_after_local_load
           (consts := demoConstants) (json := demoJson)
           (etcd := demoStore reliable) (proc := demoEnvironment "etcd")
           ["share"; "redis"] ["share"; "redis"]
           newCmd command0 withMap (world maybeStore)
           refused.1.1.1 refused.1.1.2 refused.1.2 refused.2).
  - by vm_compute.
  - by vm_compute.
Defined.

Lemma bootstrap_with_a_client_does_not_panic_witness :
  ¬ panics completed.1.1.1.
Proof.
  apply (bootstrap_with_a_client_does_not_panic
           (consts := demoConstants) (json := demoJson)
           (etcd := demoStore reliable) (proc := demoEnvironment "etcd")
           ["share"; "redis"] ["share"; "redis"]
           newCmd command0 withMap (world sharedStore)
           connected.1.2 connected.2 7).
  - by vm_compute.
  - by vm_compute.
Defined.


End DemoFacts.
